(** * Dungeon-instance scheduler: a shallow embedding and its properties

    The program (src/main.cpp, and its second shipped version
    src/unnamed/part_000) runs one worker thread per dungeon instance and one
    scheduler thread.  All of them share the player pool [tanks], [healers],
    [dps], the flag [stopFlag] and the vector [instances], and they
    synchronise on one mutex, [globalMutex].

    The embedding is a labelled transition system.  A step is one maximal
    piece of code that a thread executes without giving the mutex to another
    thread (from one blocking point to the next), or, for the part of
    [instanceThread] that runs with the mutex released, one iteration of the
    tick loop.  The value returned by [getRandomTime] is carried by the label
    of the step.

    C++ [int] is modelled by [Z].  Every counter of the pool only decreases
    and stays between 0 and its initial value; [partiesServed],
    [currentTimeElapsed] and the loop variable are bounded by the initial
    pool and by the drawn duration.  Only [totalTime] could leave the range of
    [int], which is undefined behaviour in C++ and is not modelled. *)

From Stdlib Require Import ZArith Lia Bool List Sorted.
From stdpp Require Import base numbers list.

Open Scope Z_scope.

(** ** The data shared by both versions *)

(** Where the worker thread of an instance stands in [instanceThread].
    [AtWait]: blocked in [instance->cv.wait], mutex released (this is also
    the state of a thread that has not yet taken the mutex for the first
    time).  [AtFirstTick duration]: mutex released, before the first
    [currentTimeElapsed++].  [AtLoop duration i]: at the head of the [for]
    loop with loop variable [i].  [Returned]: the thread function returned.
    [duration] and [i] are the locals of the thread. *)
Inductive Worker : Type :=
  | AtWait
  | AtFirstTick (duration : Z)
  | AtLoop (duration i : Z)
  | Returned.

(** [struct Instance].  The field [cv] carries no data; [worker] is the
    control state of the thread. *)
Record Instance : Type := mkInstance {
  id : Z;
  hasParty : bool;
  running : bool;
  partiesServed : Z;
  totalTime : Z;
  currentTimeElapsed : Z;
  currDungeonDuration : Z;
  worker : Worker
}.

(** [Instance(int id_)] with the default member initialisers. *)
Definition newInstance (id_ : Z) : Instance :=
  mkInstance id_ false false 0 0 0 0 AtWait.

(** The values read by [main]. *)
Record Config : Type := mkConfig {
  cfg_n : Z;
  cfg_tanks : Z;
  cfg_healers : Z;
  cfg_dps : Z;
  cfg_t1 : Z;
  cfg_t2 : Z
}.

(** [for (int i = 1; i <= n; ++i) instances.push_back(make_shared<Instance>(i))] *)
Definition makeInstances (n : Z) : list Instance :=
  map (fun i : nat => newInstance (Z.of_nat i)) (seq 1 (Z.to_nat n)).

(** The scheduler thread is either inside its loop (blocked in
    [cv_scheduler.wait] or in the 100 ms sleep) or it has returned. *)
Inductive Scheduler : Type :=
  | SchedLoop
  | SchedReturned.

(** The lambda of [any_of] in the wait predicate, and the first half of the
    condition of the assignment loop. *)
Definition isFree (inst : Instance) : bool :=
  negb (hasParty inst) && negb (running inst).

(** [inst->hasParty || inst->running] of the stop-condition loop. *)
Definition isBusy (inst : Instance) : bool :=
  hasParty inst || running inst.

(** [tanks >= 1 && healers >= 1 && dps >= 3] *)
Definition enoughPlayers (tanks healers dps : Z) : bool :=
  (1 <=? tanks) && (1 <=? healers) && (3 <=? dps).

Definition setHasParty (b : bool) (inst : Instance) : Instance :=
  mkInstance (id inst) b (running inst) (partiesServed inst) (totalTime inst)
    (currentTimeElapsed inst) (currDungeonDuration inst) (worker inst).

(** Lines 65-71 of [instanceThread]: the run starts. *)
Definition startRun (duration : Z) (inst : Instance) : Instance :=
  mkInstance (id inst) (hasParty inst) true (partiesServed inst)
    (totalTime inst) (currentTimeElapsed inst) duration (AtFirstTick duration).

(** [instance->currentTimeElapsed++], the thread moving on to [next]. *)
Definition tick (next : Worker) (inst : Instance) : Instance :=
  mkInstance (id inst) (hasParty inst) (running inst) (partiesServed inst)
    (totalTime inst) (currentTimeElapsed inst + 1) (currDungeonDuration inst)
    next.

(** Lines 78-90: the completion, under the mutex, and the test of
    [while (!stopFlag)] that follows it. *)
Definition complete (duration : Z) (stopFlag : bool) (inst : Instance) : Instance :=
  mkInstance (id inst) false false (partiesServed inst + 1)
    (totalTime inst + duration) 0 (currDungeonDuration inst)
    (if stopFlag then Returned else AtWait).

Definition setWorker (w : Worker) (inst : Instance) : Instance :=
  mkInstance (id inst) (hasParty inst) (running inst) (partiesServed inst)
    (totalTime inst) (currentTimeElapsed inst) (currDungeonDuration inst) w.

(** One step of the worker thread of [inst].  [stopFlag], [t1], [t2] are
    the globals it reads and [d] is what [getRandomTime] returns if this
    step calls it: a value of the closed range from [t1] to [t2].  [None]:
    the thread cannot move (it is blocked in the wait, or has returned; with
    [t2 < t1] the distribution has no value to return). *)
Definition instanceThread (stopFlag : bool) (t1 t2 : Z) (d : Z)
    (inst : Instance) : option Instance :=
  match worker inst with
  | AtWait =>
      if hasParty inst || stopFlag then
        if stopFlag then Some (setWorker Returned inst)
        else if (t1 <=? d) && (d <=? t2) then Some (startRun d inst)
        else None
      else None
  | AtFirstTick duration => Some (tick (AtLoop duration 1) inst)
  | AtLoop duration i =>
      if i <? duration then Some (tick (AtLoop duration (i + 1)) inst)
      else Some (complete duration stopFlag inst)
  | Returned => None
  end.

(** The labels of the transition system: a wake cycle of the scheduler, or a
    step of the worker of the instance at position [k] of the vector with
    [d] the next value of the random generator. *)
Inductive Label : Type :=
  | LSched
  | LInst (k : nat) (d : Z).

(** ** src/main.cpp *)

Module Main.

Record State : Type := mkState {
  tanks : Z;
  healers : Z;
  dps : Z;
  t1 : Z;
  t2 : Z;
  stopFlag : bool;
  instances : list Instance;
  scheduler : Scheduler
}.

Definition init (c : Config) : State :=
  mkState (cfg_tanks c) (cfg_healers c) (cfg_dps c) (cfg_t1 c) (cfg_t2 c)
    false (makeInstances (cfg_n c)) SchedLoop.

(** The predicate of [cv_scheduler.wait]. *)
Definition wakeCondition (s : State) : bool :=
  enoughPlayers (tanks s) (healers s) (dps s) || stopFlag s
  || existsb isFree (instances s)
  || match instances s with [] => true | _ :: _ => false end.

(** The assignment loop, lines 112-127: the new pool, the new vector and
    [partyAssigned].  The [break] leaves the rest of the vector alone. *)
Fixpoint assignLoop (tanks healers dps : Z) (l : list Instance)
    : Z * Z * Z * list Instance * bool :=
  match l with
  | [] => (tanks, healers, dps, [], false)
  | instance :: rest =>
      if isFree instance && enoughPlayers tanks healers dps then
        (tanks - 1, healers - 1, dps - 3, setHasParty true instance :: rest, true)
      else
        let '(tk, hl, dp, rest', partyAssigned) := assignLoop tanks healers dps rest in
        (tk, hl, dp, instance :: rest', partyAssigned)
  end.

(** One wake cycle of [schedulerThread], lines 98-153.  [None]: the
    scheduler is blocked in the wait, or has returned.  The sleep of lines
    148-153 changes no data. *)
Definition schedulerThread (s : State) : option State :=
  match scheduler s with
  | SchedReturned => None
  | SchedLoop =>
      if negb (wakeCondition s) then None
      else if stopFlag s then
        Some (mkState (tanks s) (healers s) (dps s) (t1 s) (t2 s)
                (stopFlag s) (instances s) SchedReturned)
      else
        let '(tk, hl, dp, insts, partyAssigned) :=
          assignLoop (tanks s) (healers s) (dps s) (instances s) in
        let hasMorePlayers := enoughPlayers tk hl dp in
        let anyRunning := existsb isBusy insts in
        if negb hasMorePlayers && negb anyRunning then
          Some (mkState tk hl dp (t1 s) (t2 s) true insts SchedReturned)
        else
          Some (mkState tk hl dp (t1 s) (t2 s) (stopFlag s) insts SchedLoop)
  end.

(** [partyAssigned] of the wake cycle that starts in [s]. *)
Definition partyAssigned (s : State) : bool :=
  snd (assignLoop (tanks s) (healers s) (dps s) (instances s)).

Definition instanceStep (k : nat) (d : Z) (s : State) : option State :=
  match instances s !! k with
  | None => None
  | Some inst =>
      match instanceThread (stopFlag s) (t1 s) (t2 s) d inst with
      | None => None
      | Some inst' =>
          Some (mkState (tanks s) (healers s) (dps s) (t1 s) (t2 s)
                  (stopFlag s) (<[k := inst']> (instances s)) (scheduler s))
      end
  end.

Definition step (l : Label) (s : State) : option State :=
  match l with
  | LSched => schedulerThread s
  | LInst k d => instanceStep k d s
  end.

Fixpoint run (ls : list Label) (s : State) : option State :=
  match ls with
  | [] => Some s
  | l :: ls' =>
      match step l s with
      | None => None
      | Some s' => run ls' s'
      end
  end.

(** The states a schedule goes through, up to its first disabled step. *)
Fixpoint trace (ls : list Label) (s : State) : list State :=
  s :: match ls with
       | [] => []
       | l :: ls' =>
           match step l s with
           | None => []
           | Some s' => trace ls' s'
           end
       end.

Inductive reachable (c : Config) : State -> Prop :=
  | reachable_init : reachable c (init c)
  | reachable_step s l s' :
      reachable c s -> step l s = Some s' -> reachable c s'.

(** Every thread has returned or is blocked for good. *)
Definition terminated (s : State) : Prop :=
  forall l, step l s = None.

End Main.

(** ** src/unnamed/part_000

    The second version has one more global, [partyNum], which the assignment
    loop increments, and it validates what [main] reads. *)

Module Part000.

Record State : Type := mkState {
  tanks : Z;
  healers : Z;
  dps : Z;
  t1 : Z;
  t2 : Z;
  partyNum : Z;
  stopFlag : bool;
  instances : list Instance;
  scheduler : Scheduler
}.

(** The input loops of [main] accept a value of [n], [tanks], [healers],
    [dps], [t1] when it is not negative and a value of [t2] when it is not
    below [t1]. *)
Definition validConfig (c : Config) : bool :=
  (0 <=? cfg_n c) && (0 <=? cfg_tanks c) && (0 <=? cfg_healers c)
  && (0 <=? cfg_dps c) && (0 <=? cfg_t1 c) && (cfg_t1 c <=? cfg_t2 c).

Definition init (c : Config) : State :=
  mkState (cfg_tanks c) (cfg_healers c) (cfg_dps c) (cfg_t1 c) (cfg_t2 c)
    1 false (makeInstances (cfg_n c)) SchedLoop.

Definition wakeCondition (s : State) : bool :=
  enoughPlayers (tanks s) (healers s) (dps s) || stopFlag s
  || existsb isFree (instances s)
  || match instances s with [] => true | _ :: _ => false end.

(** Lines 112-128, with [partyNum++] after the debit. *)
Fixpoint assignLoop (tanks healers dps partyNum : Z) (l : list Instance)
    : Z * Z * Z * Z * list Instance * bool :=
  match l with
  | [] => (tanks, healers, dps, partyNum, [], false)
  | instance :: rest =>
      if isFree instance && enoughPlayers tanks healers dps then
        (tanks - 1, healers - 1, dps - 3, partyNum + 1,
         setHasParty true instance :: rest, true)
      else
        let '(tk, hl, dp, pn, rest', partyAssigned) :=
          assignLoop tanks healers dps partyNum rest in
        (tk, hl, dp, pn, instance :: rest', partyAssigned)
  end.

Definition schedulerThread (s : State) : option State :=
  match scheduler s with
  | SchedReturned => None
  | SchedLoop =>
      if negb (wakeCondition s) then None
      else if stopFlag s then
        Some (mkState (tanks s) (healers s) (dps s) (t1 s) (t2 s)
                (partyNum s) (stopFlag s) (instances s) SchedReturned)
      else
        let '(tk, hl, dp, pn, insts, partyAssigned) :=
          assignLoop (tanks s) (healers s) (dps s) (partyNum s) (instances s) in
        let hasMorePlayers := enoughPlayers tk hl dp in
        let anyRunning := existsb isBusy insts in
        if negb hasMorePlayers && negb anyRunning then
          Some (mkState tk hl dp (t1 s) (t2 s) pn true insts SchedReturned)
        else
          Some (mkState tk hl dp (t1 s) (t2 s) pn (stopFlag s) insts SchedLoop)
  end.

Definition instanceStep (k : nat) (d : Z) (s : State) : option State :=
  match instances s !! k with
  | None => None
  | Some inst =>
      match instanceThread (stopFlag s) (t1 s) (t2 s) d inst with
      | None => None
      | Some inst' =>
          Some (mkState (tanks s) (healers s) (dps s) (t1 s) (t2 s)
                  (partyNum s) (stopFlag s) (<[k := inst']> (instances s))
                  (scheduler s))
      end
  end.

Definition step (l : Label) (s : State) : option State :=
  match l with
  | LSched => schedulerThread s
  | LInst k d => instanceStep k d s
  end.

Fixpoint trace (ls : list Label) (s : State) : list State :=
  s :: match ls with
       | [] => []
       | l :: ls' =>
           match step l s with
           | None => []
           | Some s' => trace ls' s'
           end
       end.

(** What is left of a state when [partyNum] is forgotten. *)
Definition core (s : State) : Main.State :=
  Main.mkState (tanks s) (healers s) (dps s) (t1 s) (t2 s) (stopFlag s)
    (instances s) (scheduler s).

End Part000.

(** ** Quantities the properties speak about *)

(** Assignments an instance accounts for: its completed parties, and the one
    it holds. *)
Definition partiesOf (inst : Instance) : Z :=
  partiesServed inst + (if hasParty inst then 1 else 0).

Definition sumZ (l : list Z) : Z := fold_right Z.add 0 l.

Definition partiesTotal (l : list Instance) : Z := sumZ (map partiesOf l).

(** 1 when the step [l] from [s] is a wake cycle that assigns a party. *)
Definition assignmentAt (l : Label) (s : Main.State) : nat :=
  match l with
  | LSched => if Main.partyAssigned s then 1 else 0
  | LInst _ _ => 0
  end.

(** The number of wake cycles along a schedule in which a party is assigned. *)
Fixpoint assignments (ls : list Label) (s : Main.State) : nat :=
  match ls with
  | [] => 0%nat
  | l :: ls' =>
      match Main.step l s with
      | None => 0%nat
      | Some s' => (assignmentAt l s + assignments ls' s')%nat
      end
  end.

Definition elapsedAt (k : nat) (s : Main.State) : Z :=
  match Main.instances s !! k with
  | Some inst => currentTimeElapsed inst
  | None => 0
  end.

(** 1 when the step from [s] to [s'] is a [currentTimeElapsed++] of the
    instance at position [k]. *)
Definition tickAt (k : nat) (s s' : Main.State) : nat :=
  if elapsedAt k s' =? elapsedAt k s + 1 then 1 else 0.

(** The number of ticks of the instance at position [k] along a schedule. *)
Fixpoint ticksOf (k : nat) (ls : list Label) (s : Main.State) : nat :=
  match ls with
  | [] => 0%nat
  | l :: ls' =>
      match Main.step l s with
      | None => 0%nat
      | Some s' => (tickAt k s s' + ticksOf k ls' s')%nat
      end
  end.

(** ** What holds of every instance in every reachable state *)

(** The fields of an instance agree with the place where its thread stands:
    outside a run the instance is not [running] and its clock is 0; inside a
    run it holds a party, is [running], and its clock counts the ticks
    done. *)
Definition instanceOk (inst : Instance) : Prop :=
  match worker inst with
  | AtWait | Returned => running inst = false /\ currentTimeElapsed inst = 0
  | AtFirstTick duration =>
      hasParty inst = true /\ running inst = true
      /\ currentTimeElapsed inst = 0 /\ currDungeonDuration inst = duration
  | AtLoop duration i =>
      hasParty inst = true /\ running inst = true
      /\ currentTimeElapsed inst = i /\ 1 <= i <= Z.max 1 duration
      /\ currDungeonDuration inst = duration
  end.

(** The duration recorded in an instance was drawn from the range that
    starts at [lo]; outside a run it may still be the initial 0. *)
Definition durationFrom (lo : Z) (inst : Instance) : Prop :=
  match worker inst with
  | AtWait | Returned =>
      currDungeonDuration inst = 0 \/ lo <= currDungeonDuration inst
  | AtFirstTick _ | AtLoop _ _ => lo <= currDungeonDuration inst
  end.

Definition b2z (b : bool) : Z := if b then 1 else 0.

Record invariant (c : Config) (s : Main.State) : Prop := mkInvariant {
  inv_t1 : Main.t1 s = cfg_t1 c;
  inv_t2 : Main.t2 s = cfg_t2 c;
  inv_ids : map id (Main.instances s) = map id (makeInstances (cfg_n c));
  inv_ok : Forall instanceOk (Main.instances s);
  inv_dur : Forall (durationFrom (cfg_t1 c)) (Main.instances s);
  inv_tanks : Main.tanks s + partiesTotal (Main.instances s) = cfg_tanks c;
  inv_healers : Main.healers s + partiesTotal (Main.instances s) = cfg_healers c;
  inv_dps : Main.dps s + 3 * partiesTotal (Main.instances s) = cfg_dps c
}.

(** The two summands of [partiesTotal]: the parties completed by all
    instances, and the number of instances that hold a party. *)
Definition servedTotal (l : list Instance) : Z := sumZ (map partiesServed l).

Definition inFlight (l : list Instance) : Z :=
  sumZ (map (fun inst => b2z (hasParty inst)) l).


(** *** The configurations of the scenarios *)

(** No instance, and players for one party. *)
Definition noInstanceConfig : Config := mkConfig 0 1 1 3 1 1.

(** One instance, players for one party, every run drawn with duration 0. *)
Definition zeroDurationConfig : Config := mkConfig 1 1 1 3 0 0.

Definition zeroDurationSchedule : list Label := [LSched; LInst 0 0; LInst 0 0].

(** Scenario A: one instance, players for one party, durations from 2 to 2. *)
Definition scenarioA : Config := mkConfig 1 1 1 3 2 2.

Definition scheduleA : list Label :=
  [LSched; LInst 0 2; LInst 0 2; LInst 0 2; LInst 0 2; LSched; LInst 0 2].

Definition finalA : Main.State :=
  Main.mkState 0 0 0 2 2 true [mkInstance 1 false false 1 2 0 2 Returned]
    SchedReturned.

(** The states of scenario A, in the order in which they are visited. *)
Definition statesA : list Main.State := Main.trace scheduleA (Main.init scenarioA).

(** Scenario A after the assignment, the start of the run and its first
    tick. *)
Definition midRunA : Main.State :=
  Main.mkState 0 0 0 2 2 false [mkInstance 1 true true 0 0 1 2 (AtLoop 2 1)]
    SchedLoop.

(** Scenario A after the first wake cycle of the scheduler. *)
Definition assignedA : Main.State :=
  Main.mkState 0 0 0 2 2 false [mkInstance 1 true false 0 0 0 0 AtWait]
    SchedLoop.

(** ** Shutdown, accounting of time, and progress *)

(** A worker thread returns only when [stopFlag] is set. *)
Definition exitedAfterStop (stopFlag : bool) (inst : Instance) : Prop :=
  worker inst = Returned -> stopFlag = true.

(** Nothing is left to do: the pool cannot form a party and no instance
    holds a party or runs. *)
Definition quiescent (s : Main.State) : Prop :=
  enoughPlayers (Main.tanks s) (Main.healers s) (Main.dps s) = false
  /\ Forall (fun inst => isBusy inst = false) (Main.instances s).

Record shutdownInvariant (s : Main.State) : Prop := mkShutdownInvariant {
  sd_sched : Main.stopFlag s = true <-> Main.scheduler s = SchedReturned;
  sd_exit : Forall (exitedAfterStop (Main.stopFlag s)) (Main.instances s);
  sd_quiet : Main.stopFlag s = true -> quiescent s
}.

(** Every completed run added a duration of the range from [lo] to [hi] to
    [totalTime], and the duration of the run in progress is in that range. *)
Definition timeOk (lo hi : Z) (inst : Instance) : Prop :=
  lo * partiesServed inst <= totalTime inst <= hi * partiesServed inst
  /\ match worker inst with
     | AtFirstTick duration | AtLoop duration _ => lo <= duration <= hi
     | AtWait | Returned => True
     end.

(** An upper bound of the steps a worker needs for one run drawn from a
    range that ends at [hi], the return to the wait included. *)
Definition runBound (hi : Z) : Z := Z.max 1 hi + 3.

(** An upper bound of the steps the worker of [inst] can still take without
    a new assignment. *)
Definition workLeft (hi : Z) (inst : Instance) : Z :=
  match worker inst with
  | AtWait => if hasParty inst then runBound hi else 1
  | AtFirstTick duration => Z.max 1 duration + 2
  | AtLoop duration i => Z.max 1 duration - i + 2
  | Returned => 0
  end.

Definition potential (s : Main.State) : Z :=
  runBound (Main.t2 s) * Z.max 0 (Main.tanks s)
  + sumZ (map (workLeft (Main.t2 s)) (Main.instances s))
  + match Main.scheduler s with SchedLoop => 1 | SchedReturned => 0 end.

(** The number of steps along a schedule that lower [potential]. *)
Fixpoint progressSteps (ls : list Label) (s : Main.State) : nat :=
  match ls with
  | [] => 0%nat
  | l :: ls' =>
      match Main.step l s with
      | None => 0%nat
      | Some s' =>
          ((if (potential s' <? potential s)%Z then 1 else 0)
           + progressSteps ls' s')%nat
      end
  end.

Module Part000Run.

Fixpoint run (ls : list Label) (s : Part000.State) : option Part000.State :=
  match ls with
  | [] => Some s
  | l :: ls' =>
      match Part000.step l s with
      | None => None
      | Some s' => run ls' s'
      end
  end.

End Part000Run.

(** Scenario A just after the scheduler has set [stopFlag]: the worker has
    not returned yet. *)
Definition stoppedA : Main.State :=
  Main.mkState 0 0 0 2 2 true [mkInstance 1 false false 1 2 0 2 AtWait]
    SchedReturned.

(** The worker of [inst] is not blocked: it is inside a run, or it waits
    with a party or after [stopFlag] was set. *)
Definition canMove (stopFlag : bool) (inst : Instance) : bool :=
  match worker inst with
  | AtWait => hasParty inst || stopFlag
  | AtFirstTick _ | AtLoop _ _ => true
  | Returned => false
  end.

(** The vector after the first [m] instances received a party. *)
Definition firstAssigned (m : nat) (l : list Instance) : list Instance :=
  map (setHasParty true) (take m l) ++ drop m l.

(** ** The range of [int] *)

Definition INT_MAX : Z := 2147483647.

Definition INT_MIN : Z := -2147483648.

(** The value a 32-bit two's complement [int] holds after an addition whose
    mathematical result is [z]. *)
Definition wrapInt (z : Z) : Z :=
  (z + 2147483648) mod 4294967296 - 2147483648.

(** The number of parties the pool of a configuration can form. *)
Definition maxParties (c : Config) : Z :=
  Z.min (cfg_tanks c) (Z.min (cfg_healers c) (cfg_dps c / 3)).

(** Three instances and players for two parties: the state after the first
    wake cycle, and the state after the second. *)
Definition threeInstances : Config := mkConfig 3 2 2 6 1 1.

Definition oneAssigned3 : Main.State :=
  Main.mkState 1 1 3 1 1 false
    [mkInstance 1 true false 0 0 0 0 AtWait; newInstance 2; newInstance 3]
    SchedLoop.

Definition twoAssigned3 : Main.State :=
  Main.mkState 0 0 0 1 1 false
    [mkInstance 1 true false 0 0 0 0 AtWait;
     mkInstance 2 true false 0 0 0 0 AtWait; newInstance 3]
    SchedLoop.

(** ** Lemmas on the assignment loop *)

Section AssignLoop.

Lemma enoughPlayers_true tk hl dp :
  enoughPlayers tk hl dp = true <-> 1 <= tk /\ 1 <= hl /\ 3 <= dp.
Proof. unfold enoughPlayers. rewrite !andb_true_iff, !Z.leb_le. tauto. Qed.

Lemma partiesOf_setHasParty inst :
  hasParty inst = false -> partiesOf (setHasParty true inst) = partiesOf inst + 1.
Proof. unfold partiesOf. simpl. intros ->. lia. Qed.

Lemma isFree_true inst :
  isFree inst = true <-> hasParty inst = false /\ running inst = false.
Proof. unfold isFree. rewrite andb_true_iff, !negb_true_iff. tauto. Qed.

(** The loop either changes nothing, or debits one party and marks the
    first free instance. *)
Lemma assignLoop_cases tk hl dp l :
  (Main.assignLoop tk hl dp l = (tk, hl, dp, l, false)
   /\ (enoughPlayers tk hl dp = false \/ existsb isFree l = false))
  \/ (exists l1 x l2,
        l = l1 ++ x :: l2 /\ existsb isFree l1 = false /\ isFree x = true
        /\ enoughPlayers tk hl dp = true
        /\ Main.assignLoop tk hl dp l
           = (tk - 1, hl - 1, dp - 3, l1 ++ setHasParty true x :: l2, true)).
Proof.
  induction l as [|a l IH]; simpl.
  - left. split; [reflexivity | right; reflexivity].
  - destruct (isFree a) eqn:Hfree; simpl.
    + destruct (enoughPlayers tk hl dp) eqn:He.
      * right. exists [], a, l. simpl. repeat split; assumption.
      * left. destruct IH as [[-> _] | (l1 & x & l2 & _ & _ & _ & Hc & _)];
          [split; [reflexivity | left; reflexivity] | discriminate].
    + destruct IH as [[-> H] | (l1 & x & l2 & -> & H1 & Hx & He & ->)].
      * left. split; [reflexivity | exact H].
      * right. exists (a :: l1), x, l2. simpl. rewrite Hfree. simpl.
        repeat split; assumption.
Qed.

Lemma partiesTotal_app l1 l2 :
  partiesTotal (l1 ++ l2) = partiesTotal l1 + partiesTotal l2.
Proof.
  unfold partiesTotal. induction l1 as [|a l1 IH]; simpl; [reflexivity|].
  rewrite IH. lia.
Qed.

Lemma partiesTotal_cons a l :
  partiesTotal (a :: l) = partiesOf a + partiesTotal l.
Proof. reflexivity. Qed.

Lemma assignLoop_effect tk hl dp l tk' hl' dp' l' a :
  Main.assignLoop tk hl dp l = (tk', hl', dp', l', a) ->
  tk' = tk - b2z a /\ hl' = hl - b2z a /\ dp' = dp - 3 * b2z a
  /\ partiesTotal l' = partiesTotal l + b2z a
  /\ (a = true -> enoughPlayers tk hl dp = true)
  /\ map id l' = map id l
  /\ (Forall instanceOk l -> Forall instanceOk l')
  /\ (forall lo, Forall (durationFrom lo) l -> Forall (durationFrom lo) l').
Proof.
  destruct (assignLoop_cases tk hl dp l)
    as [[-> _] | (l1 & x & l2 & -> & _ & Hx & He & ->)]; intros [= <- <- <- <- <-].
  - unfold b2z. repeat split; try lia; try done.
  - apply isFree_true in Hx as [Hp Hr]. unfold b2z.
    repeat split; try lia; try done.
    + rewrite !partiesTotal_app, !partiesTotal_cons, partiesOf_setHasParty by done.
      lia.
    + rewrite !map_app. reflexivity.
    + rewrite !Forall_app, !Forall_cons. intros (H1 & H2 & H3).
      repeat split; try done. revert H2. unfold instanceOk. simpl.
      destruct (worker x); intuition congruence.
    + intros lo. rewrite !Forall_app, !Forall_cons. intros (H1 & H2 & H3).
      repeat split; done.
Qed.

End AssignLoop.

(** ** Lemmas on the steps *)

Section Steps.

Lemma schedulerThread_inv s s' :
  Main.schedulerThread s = Some s' ->
  Main.scheduler s = SchedLoop /\ Main.wakeCondition s = true
  /\ Main.t1 s' = Main.t1 s /\ Main.t2 s' = Main.t2 s
  /\ ((Main.stopFlag s = true /\ Main.stopFlag s' = true
       /\ Main.tanks s' = Main.tanks s /\ Main.healers s' = Main.healers s
       /\ Main.dps s' = Main.dps s /\ Main.instances s' = Main.instances s
       /\ Main.scheduler s' = SchedReturned)
      \/ (Main.stopFlag s = false
          /\ Main.assignLoop (Main.tanks s) (Main.healers s) (Main.dps s)
               (Main.instances s)
             = (Main.tanks s', Main.healers s', Main.dps s', Main.instances s',
                Main.partyAssigned s)
          /\ Main.stopFlag s'
             = negb (enoughPlayers (Main.tanks s') (Main.healers s') (Main.dps s'))
               && negb (existsb isBusy (Main.instances s'))
          /\ Main.scheduler s'
             = if Main.stopFlag s' then SchedReturned else SchedLoop)).
Proof.
  unfold Main.schedulerThread, Main.partyAssigned.
  destruct (Main.scheduler s); [|discriminate].
  destruct (Main.wakeCondition s); simpl; [|discriminate].
  destruct (Main.stopFlag s) eqn:Hstop.
  - intros [= <-]. simpl. repeat split; try done. left. done.
  - destruct (Main.assignLoop _ _ _ _) as [[[[tk hl] dp] insts] a] eqn:Hloop.
    destruct (negb (enoughPlayers tk hl dp) && negb (existsb isBusy insts)) eqn:Hc;
      intros [= <-]; simpl; rewrite ?Hc; repeat split; try done;
      right; repeat split; done.
Qed.

Lemma instanceStep_inv k d s s' :
  Main.instanceStep k d s = Some s' ->
  exists inst inst',
    Main.instances s !! k = Some inst
    /\ instanceThread (Main.stopFlag s) (Main.t1 s) (Main.t2 s) d inst = Some inst'
    /\ s' = Main.mkState (Main.tanks s) (Main.healers s) (Main.dps s)
              (Main.t1 s) (Main.t2 s) (Main.stopFlag s)
              (<[k := inst']> (Main.instances s)) (Main.scheduler s).
Proof.
  unfold Main.instanceStep.
  destruct (Main.instances s !! k) as [inst|]; [|discriminate].
  destruct (instanceThread _ _ _ _ _) as [inst'|] eqn:H; [|discriminate].
  intros [= <-]. exists inst, inst'. done.
Qed.

(** What one step of a worker thread does to its instance. *)
Lemma instanceThread_inv stop lo hi d inst inst' :
  instanceThread stop lo hi d inst = Some inst' ->
  (worker inst = AtWait /\ stop = true /\ inst' = setWorker Returned inst)
  \/ (worker inst = AtWait /\ stop = false /\ hasParty inst = true
      /\ lo <= d <= hi /\ inst' = startRun d inst)
  \/ (exists duration,
        worker inst = AtFirstTick duration /\ inst' = tick (AtLoop duration 1) inst)
  \/ (exists duration i,
        worker inst = AtLoop duration i /\ i < duration
        /\ inst' = tick (AtLoop duration (i + 1)) inst)
  \/ (exists duration i,
        worker inst = AtLoop duration i /\ duration <= i
        /\ inst' = complete duration stop inst).
Proof.
  unfold instanceThread. destruct (worker inst) as [|duration|duration i|].
  - destruct stop.
    + rewrite orb_true_r. intros [= <-]. left. done.
    + rewrite orb_false_r. destruct (hasParty inst); [|discriminate].
      destruct ((lo <=? d) && (d <=? hi)) eqn:Hd; [|discriminate].
      apply andb_true_iff in Hd as [H1%Z.leb_le H2%Z.leb_le].
      intros [= <-]. right. left. repeat split; done.
  - intros [= <-]. right. right. left. exists duration. done.
  - destruct (i <? duration) eqn:Hi; intros [= <-].
    + apply Z.ltb_lt in Hi. right. right. right. left. exists duration, i. done.
    + apply Z.ltb_ge in Hi. do 4 right. exists duration, i. done.
  - discriminate.
Qed.

Lemma instanceThread_keeps stop lo hi d inst inst' :
  instanceOk inst ->
  instanceThread stop lo hi d inst = Some inst' ->
  instanceOk inst' /\ partiesOf inst' = partiesOf inst /\ id inst' = id inst
  /\ (durationFrom lo inst -> durationFrom lo inst').
Proof.
  intros Hok H.
  apply instanceThread_inv in H
    as [(Hw & _ & ->) | [(Hw & _ & Hp & Hd & ->) | [(du & Hw & ->)
        | [(du & i & Hw & Hi & ->) | (du & i & Hw & Hi & ->)]]]];
    unfold instanceOk, partiesOf, durationFrom in *; rewrite Hw in *; simpl.
  - tauto.
  - intuition lia.
  - intuition lia.
  - intuition lia.
  - destruct Hok as (-> & _). destruct stop; simpl; intuition lia.
Qed.

Lemma partiesTotal_insert (l : list Instance) k inst inst' :
  l !! k = Some inst -> partiesOf inst' = partiesOf inst ->
  partiesTotal (<[k := inst']> l) = partiesTotal l.
Proof.
  revert k. induction l as [|a l IH]; intros [|k]; simpl; try done.
  - intros [= ->] H. rewrite !partiesTotal_cons. lia.
  - intros Hk H. rewrite !partiesTotal_cons, (IH k) by done. reflexivity.
Qed.

Lemma map_id_insert (l : list Instance) k inst inst' :
  l !! k = Some inst -> id inst' = id inst ->
  map id (<[k := inst']> l) = map id l.
Proof.
  revert k. induction l as [|a l IH]; intros [|k]; simpl; try done.
  - intros [= ->] ->. reflexivity.
  - intros Hk H. rewrite (IH k) by done. reflexivity.
Qed.

Lemma invariant_init c : invariant c (Main.init c).
Proof.
  assert (H : forall l : list nat,
             Forall instanceOk (map (fun i => newInstance (Z.of_nat i)) l)
             /\ Forall (durationFrom (cfg_t1 c))
                  (map (fun i => newInstance (Z.of_nat i)) l)
             /\ partiesTotal (map (fun i => newInstance (Z.of_nat i)) l) = 0).
  { induction l as [|a l (IH1 & IH2 & IH3)]; simpl.
    - repeat split; constructor.
    - rewrite partiesTotal_cons, IH3. repeat split; try done.
      + constructor; [|done]. unfold instanceOk. simpl. done.
      + constructor; [|done]. left. reflexivity. }
  destruct (H (seq 1 (Z.to_nat (cfg_n c)))) as (H1 & H2 & H3).
  split; simpl; unfold makeInstances; rewrite ?H3; try done; lia.
Qed.

Lemma invariant_step c l s s' :
  invariant c s -> Main.step l s = Some s' -> invariant c s'.
Proof.
  intros [Ht1 Ht2 Hids Hok Hdur Htk Hhl Hdp]. destruct l as [|k d]; simpl.
  - intros H. apply schedulerThread_inv in H
      as (_ & _ & E1 & E2 & [(_ & _ & Etk & Ehl & Edp & Ei & _) | (_ & Hl & _ & _)]).
    + split; rewrite ?E1, ?E2, ?Etk, ?Ehl, ?Edp, ?Ei; done.
    + apply assignLoop_effect in Hl as (Etk & Ehl & Edp & Ep & _ & Eid & Fok & Fdur).
      split; rewrite ?E1, ?E2, ?Eid; try done; try (by auto); lia.
  - intros H. apply instanceStep_inv in H as (inst & inst' & Hk & Hth & ->).
    simpl. pose proof (Forall_lookup_1 _ _ _ _ Hok Hk) as Hi.
    pose proof (Forall_lookup_1 _ _ _ _ Hdur Hk) as Hdi.
    rewrite <- Ht1 in Hdi.
    destruct (instanceThread_keeps _ _ _ _ _ _ Hi Hth) as (Hi' & Hp & Hid & Hd').
    split; simpl; try done.
    + rewrite (map_id_insert _ _ inst) by done. done.
    + apply Forall_insert; done.
    + apply Forall_insert; [done|]. rewrite <- Ht1. auto.
    + rewrite (partiesTotal_insert _ _ inst) by done. done.
    + rewrite (partiesTotal_insert _ _ inst) by done. done.
    + rewrite (partiesTotal_insert _ _ inst) by done. done.
Qed.

Lemma reachable_invariant c s : Main.reachable c s -> invariant c s.
Proof.
  induction 1 as [|s l s' _ IH Hstep]; [apply invariant_init|].
  eapply invariant_step; eassumption.
Qed.

End Steps.

(** ** Reachable states *)

Section Reachable.

Lemma reachable_run c ls s :
  Main.run ls (Main.init c) = Some s -> Main.reachable c s.
Proof.
  assert (H : forall s0, Main.reachable c s0 ->
              Main.run ls s0 = Some s -> Main.reachable c s).
  { induction ls as [|l ls IH]; simpl; intros s0 H0.
    - intros [= <-]. exact H0.
    - destruct (Main.step l s0) as [s1|] eqn:H1; [|discriminate].
      apply IH. eapply Main.reachable_step; eassumption. }
  apply H. constructor.
Qed.

Lemma midRunA_reachable : Main.reachable scenarioA midRunA.
Proof. apply (reachable_run scenarioA [LSched; LInst 0 2; LInst 0 2]). reflexivity. Qed.

Lemma partiesTotal_split l : partiesTotal l = servedTotal l + inFlight l.
Proof.
  unfold partiesTotal, servedTotal, inFlight, partiesOf, b2z.
  induction l as [|a l IH]; simpl; [reflexivity|].
  rewrite IH. destruct (hasParty a); lia.
Qed.

Lemma pool_nonneg_step l s s' :
  0 <= Main.tanks s /\ 0 <= Main.healers s /\ 0 <= Main.dps s ->
  Main.step l s = Some s' ->
  0 <= Main.tanks s' /\ 0 <= Main.healers s' /\ 0 <= Main.dps s'.
Proof.
  intros Hs. destruct l as [|k d]; simpl; intros H.
  - apply schedulerThread_inv in H
      as (_ & _ & _ & _ & [(_ & _ & -> & -> & -> & _) | (_ & Hl & _)]); [done|].
    apply assignLoop_effect in Hl as (-> & -> & -> & _ & He & _).
    destruct (Main.partyAssigned s); unfold b2z; [|lia].
    specialize (He eq_refl). apply enoughPlayers_true in He. lia.
  - apply instanceStep_inv in H as (inst & inst' & _ & _ & ->). done.
Qed.

End Reachable.

(** ** The properties *)

(** C2.  Conservation of the players: in every reachable state, for each of
    the three kinds, the parties completed by all instances times the cost
    of a party (1, 1, 3), plus the counter of the pool, plus the cost of a
    party for every instance with [hasParty] set, is the initial counter;
    and a step of the scheduler or of an instance leaves these three sums
    as they are. *)
Theorem players_conserved c s :
  Main.reachable c s ->
  (Main.tanks s + servedTotal (Main.instances s) * 1
     + inFlight (Main.instances s) * 1 = cfg_tanks c
   /\ Main.healers s + servedTotal (Main.instances s) * 1
     + inFlight (Main.instances s) * 1 = cfg_healers c
   /\ Main.dps s + servedTotal (Main.instances s) * 3
     + inFlight (Main.instances s) * 3 = cfg_dps c)
  /\ forall l s',
       Main.step l s = Some s' ->
       Main.tanks s' + servedTotal (Main.instances s') * 1
         + inFlight (Main.instances s') * 1
       = Main.tanks s + servedTotal (Main.instances s) * 1
         + inFlight (Main.instances s) * 1
       /\ Main.healers s' + servedTotal (Main.instances s') * 1
         + inFlight (Main.instances s') * 1
       = Main.healers s + servedTotal (Main.instances s) * 1
         + inFlight (Main.instances s) * 1
       /\ Main.dps s' + servedTotal (Main.instances s') * 3
         + inFlight (Main.instances s') * 3
       = Main.dps s + servedTotal (Main.instances s) * 3
         + inFlight (Main.instances s) * 3.
Proof.
  intros Hs. pose proof (reachable_invariant _ _ Hs) as I.
  pose proof (inv_tanks _ _ I) as Htk. pose proof (inv_healers _ _ I) as Hhl.
  pose proof (inv_dps _ _ I) as Hdp.
  rewrite partiesTotal_split in Htk, Hhl, Hdp.
  split; [lia|]. intros l s' Hstep.
  pose proof (invariant_step _ _ _ _ I Hstep) as I'.
  pose proof (inv_tanks _ _ I') as Htk'. pose proof (inv_healers _ _ I') as Hhl'.
  pose proof (inv_dps _ _ I') as Hdp'.
  rewrite partiesTotal_split in Htk', Hhl', Hdp'. lia.
Qed.

Lemma players_conserved_witness :
  Main.reachable scenarioA midRunA
  /\ Main.tanks midRunA + servedTotal (Main.instances midRunA) * 1
     + inFlight (Main.instances midRunA) * 1 = 1.
Proof.
  split; [exact midRunA_reachable|].
  exact (proj1 (proj1 (players_conserved scenarioA midRunA midRunA_reachable))).
Defined.

(** C3.  From a configuration whose three counters are not negative, every
    reachable state has [tanks], [healers] and [dps] at least 0, and so has
    the state after any step from it. *)
Theorem pool_never_negative c s :
  0 <= cfg_tanks c -> 0 <= cfg_healers c -> 0 <= cfg_dps c ->
  Main.reachable c s ->
  (0 <= Main.tanks s /\ 0 <= Main.healers s /\ 0 <= Main.dps s)
  /\ forall l s',
       Main.step l s = Some s' ->
       0 <= Main.tanks s' /\ 0 <= Main.healers s' /\ 0 <= Main.dps s'.
Proof.
  intros Htk Hhl Hdp Hs.
  assert (H : 0 <= Main.tanks s /\ 0 <= Main.healers s /\ 0 <= Main.dps s).
  { induction Hs as [|s l s' _ IH Hstep]; [simpl; lia|].
    eapply pool_nonneg_step; eassumption. }
  split; [exact H|]. intros l s'. apply pool_nonneg_step. exact H.
Qed.

Lemma pool_never_negative_witness :
  (0 <= cfg_tanks scenarioA /\ 0 <= cfg_healers scenarioA
   /\ 0 <= cfg_dps scenarioA /\ Main.reachable scenarioA midRunA)
  /\ 0 <= Main.tanks midRunA /\ 0 <= Main.healers midRunA /\ 0 <= Main.dps midRunA.
Proof.
  split.
  - repeat split; try (simpl; lia). exact midRunA_reachable.
  - apply (pool_never_negative scenarioA midRunA); try (simpl; lia).
    exact midRunA_reachable.
Defined.

(** The loop of src/unnamed/part_000 is the loop of src/main.cpp with
    [partyNum] incremented when a party is assigned. *)
Lemma assignLoop_core tanks healers dps partyNum l :
  Part000.assignLoop tanks healers dps partyNum l
  = let '(tk, hl, dp, l', a) := Main.assignLoop tanks healers dps l in
    (tk, hl, dp, partyNum + b2z a, l', a).
Proof.
  induction l as [|inst l IH]; simpl.
  - rewrite Z.add_0_r. reflexivity.
  - destruct (isFree inst && enoughPlayers tanks healers dps); [reflexivity|].
    rewrite IH.
    destruct (Main.assignLoop tanks healers dps l) as [[[[tk hl] dp] l'] a].
    reflexivity.
Qed.

(** C4.  The consumption step of the assignment loop, reached when some
    instance is free, in both versions (src/main.cpp lines 112-127 and
    src/unnamed/part_000 lines 112-128): it succeeds exactly when
    [tanks >= 1], [healers >= 1] and [dps >= 3] hold before it; when it
    succeeds the three counters are debited by 1, 1 and 3 (and part_000
    increments [partyNum]); when it fails none of the counters changes (nor
    [partyNum], nor any instance). *)
Theorem consume_all_or_nothing tanks healers dps l :
  existsb isFree l = true ->
  (forall tanks' healers' dps' l' partyAssigned,
     Main.assignLoop tanks healers dps l
     = (tanks', healers', dps', l', partyAssigned) ->
     (partyAssigned = true <-> 1 <= tanks /\ 1 <= healers /\ 3 <= dps)
     /\ (partyAssigned = true ->
         tanks' = tanks - 1 /\ healers' = healers - 1 /\ dps' = dps - 3)
     /\ (partyAssigned = false ->
         tanks' = tanks /\ healers' = healers /\ dps' = dps /\ l' = l))
  /\ (forall partyNum tanks' healers' dps' partyNum' l' partyAssigned,
        Part000.assignLoop tanks healers dps partyNum l
        = (tanks', healers', dps', partyNum', l', partyAssigned) ->
        (partyAssigned = true <-> 1 <= tanks /\ 1 <= healers /\ 3 <= dps)
        /\ (partyAssigned = true ->
            tanks' = tanks - 1 /\ healers' = healers - 1 /\ dps' = dps - 3
            /\ partyNum' = partyNum + 1)
        /\ (partyAssigned = false ->
            tanks' = tanks /\ healers' = healers /\ dps' = dps
            /\ partyNum' = partyNum /\ l' = l)).
Proof.
  intros Hfree.
  assert (H : forall tk' hl' dp' l' a,
             Main.assignLoop tanks healers dps l = (tk', hl', dp', l', a) ->
             (a = true <-> 1 <= tanks /\ 1 <= healers /\ 3 <= dps)
             /\ (a = true ->
                 tk' = tanks - 1 /\ hl' = healers - 1 /\ dp' = dps - 3)
             /\ (a = false ->
                 tk' = tanks /\ hl' = healers /\ dp' = dps /\ l' = l)).
  { intros tk' hl' dp' l' a.
    destruct (assignLoop_cases tanks healers dps l)
      as [[-> [He | Hn]] | (l1 & x & l2 & -> & _ & _ & He & ->)];
      intros [= <- <- <- <- <-].
    - rewrite <- enoughPlayers_true, He. repeat split; done.
    - congruence.
    - rewrite <- enoughPlayers_true, He. repeat split; done. }
  split; [exact H|].
  intros pn tk' hl' dp' pn' l' a. rewrite assignLoop_core.
  destruct (Main.assignLoop tanks healers dps l) as [[[[tk hl] dp] l0] a0] eqn:Hl.
  intros [= <- <- <- <- <- <-].
  destruct (H _ _ _ _ _ eq_refl) as (Hiff & Hyes & Hno).
  split; [exact Hiff|]. split.
  - intros Ha. destruct (Hyes Ha) as (-> & -> & ->). rewrite Ha. done.
  - intros Ha. destruct (Hno Ha) as (-> & -> & -> & ->). rewrite Ha.
    unfold b2z. repeat split; lia.
Qed.

Lemma consume_all_or_nothing_witness :
  existsb isFree [newInstance 1] = true
  /\ ((true = true <-> 1 <= 1 /\ 1 <= 1 /\ 3 <= 3)
      /\ (true = true -> 0 = 1 - 1 /\ 0 = 1 - 1 /\ 0 = 3 - 3)
      /\ (true = false ->
          0 = 1 /\ 0 = 1 /\ 0 = 3
          /\ [setHasParty true (newInstance 1)] = [newInstance 1]))
  /\ ((true = true <-> 1 <= 1 /\ 1 <= 1 /\ 3 <= 3)
      /\ (true = true -> 0 = 1 - 1 /\ 0 = 1 - 1 /\ 0 = 3 - 3 /\ 8 = 7 + 1)
      /\ (true = false ->
          0 = 1 /\ 0 = 1 /\ 0 = 3 /\ 8 = 7
          /\ [setHasParty true (newInstance 1)] = [newInstance 1])).
Proof.
  split; [reflexivity|]. split.
  - apply (proj1 (consume_all_or_nothing 1 1 3 [newInstance 1] eq_refl)).
    reflexivity.
  - apply (proj2 (consume_all_or_nothing 1 1 3 [newInstance 1] eq_refl) 7).
    reflexivity.
Defined.

(** With no free instance the loop never reaches the consumption step, and
    the pool stays as it is. *)
Lemma no_free_instance_no_debit tanks healers dps l :
  existsb isFree l = false ->
  Main.assignLoop tanks healers dps l = (tanks, healers, dps, l, false).
Proof.
  intros Hn.
  destruct (assignLoop_cases tanks healers dps l)
    as [[-> _] | (l1 & x & l2 & -> & _ & Hx & _)]; [reflexivity|].
  rewrite existsb_app in Hn. simpl in Hn. rewrite Hx, orb_true_r in Hn.
  discriminate.
Qed.

(** C9.  In every reachable state an instance that is [running] holds a
    party, and this is still so after any step. *)
Theorem running_implies_hasParty c s :
  Main.reachable c s ->
  (forall k inst,
     Main.instances s !! k = Some inst ->
     running inst = true -> hasParty inst = true)
  /\ forall l s' k inst,
       Main.step l s = Some s' ->
       Main.instances s' !! k = Some inst ->
       running inst = true -> hasParty inst = true.
Proof.
  assert (H : forall s0, Main.reachable c s0 ->
              forall k inst, Main.instances s0 !! k = Some inst ->
              running inst = true -> hasParty inst = true).
  { intros s0 H0 k inst Hk Hr.
    pose proof (Forall_lookup_1 _ _ _ _ (inv_ok _ _ (reachable_invariant _ _ H0)) Hk)
      as Hok.
    unfold instanceOk in Hok. destruct (worker inst); intuition congruence. }
  intros Hs. split; [exact (H s Hs)|].
  intros l s' k inst Hstep. apply (H s'). eapply Main.reachable_step; eassumption.
Qed.

Lemma running_implies_hasParty_witness :
  Main.reachable scenarioA midRunA
  /\ (Main.instances midRunA !! 0%nat
      = Some (mkInstance 1 true true 0 0 1 2 (AtLoop 2 1)) ->
      running (mkInstance 1 true true 0 0 1 2 (AtLoop 2 1)) = true ->
      hasParty (mkInstance 1 true true 0 0 1 2 (AtLoop 2 1)) = true).
Proof.
  split; [exact midRunA_reachable|].
  exact (proj1 (running_implies_hasParty scenarioA midRunA midRunA_reachable)
           0%nat (mkInstance 1 true true 0 0 1 2 (AtLoop 2 1))).
Defined.

(** The vector lists the instances by increasing [id]. *)
Lemma ids_increasing n : StronglySorted Z.lt (map id (makeInstances n)).
Proof.
  unfold makeInstances. generalize (Z.to_nat n) as m. generalize 1%nat as a.
  intros a m. revert a. induction m as [|m IH]; intros a; simpl.
  - constructor.
  - constructor; [apply IH|].
    apply Forall_forall. intros x Hx. apply list_elem_of_In in Hx.
    rewrite map_map in Hx. apply in_map_iff in Hx as (i & <- & Hi).
    apply in_seq in Hi. simpl. lia.
Qed.

Lemma sorted_after_split (l1 : list Z) x l2 :
  StronglySorted Z.lt (l1 ++ x :: l2) -> Forall (Z.lt x) l2.
Proof.
  induction l1 as [|a l1 IH]; simpl; intros H; inversion H; subst; auto.
Qed.

(** C6.  A wake cycle of the scheduler, in any reachable state, either
    leaves the pool and all instances as they are, or assigns exactly one
    party: the pool is debited once, the instance that receives the party is
    free, every instance before it in the vector is not free, its [id] is
    the smallest among the free instances, and no other instance (in
    particular none after it) is changed. *)
Theorem one_assignment_to_lowest_free_id c s s' :
  Main.reachable c s ->
  Main.schedulerThread s = Some s' ->
  (Main.instances s' = Main.instances s /\ Main.tanks s' = Main.tanks s
   /\ Main.healers s' = Main.healers s /\ Main.dps s' = Main.dps s)
  \/ exists l1 x l2,
       Main.instances s = l1 ++ x :: l2
       /\ Main.instances s' = l1 ++ setHasParty true x :: l2
       /\ isFree x = true
       /\ existsb isFree l1 = false
       /\ (forall y, In y (Main.instances s) -> isFree y = true -> id x <= id y)
       /\ Main.tanks s' = Main.tanks s - 1
       /\ Main.healers s' = Main.healers s - 1
       /\ Main.dps s' = Main.dps s - 3.
Proof.
  intros Hs H. pose proof (inv_ids _ _ (reachable_invariant _ _ Hs)) as Hids.
  apply schedulerThread_inv in H
    as (_ & _ & _ & _ & [(_ & _ & -> & -> & -> & -> & _) | (_ & Hl & _)]);
    [left; done|].
  destruct (assignLoop_cases (Main.tanks s) (Main.healers s) (Main.dps s)
              (Main.instances s))
    as [[E _] | (l1 & x & l2 & El & Hl1 & Hx & _ & E)];
    rewrite E in Hl; injection Hl as <- <- <- <- _; [left; done|].
  right. exists l1, x, l2. repeat split; try done.
  intros y Hy Hfree. rewrite El in Hy. apply in_app_or in Hy as [Hy | [<- | Hy]].
  - assert (existsb isFree l1 = true) by (apply existsb_exists; eauto). congruence.
  - lia.
  - pose proof (ids_increasing (cfg_n c)) as Hsorted.
    rewrite <- Hids, El, map_app in Hsorted. simpl in Hsorted.
    apply sorted_after_split in Hsorted.
    rewrite Forall_forall in Hsorted.
    specialize (Hsorted (id y)). 
    assert (id x < id y); [|lia].
    apply Hsorted. apply list_elem_of_In. apply in_map. exact Hy.
Qed.

Lemma one_assignment_to_lowest_free_id_witness :
  (Main.reachable threeInstances oneAssigned3
   /\ Main.schedulerThread oneAssigned3 = Some twoAssigned3)
  /\ ((Main.instances twoAssigned3 = Main.instances oneAssigned3
       /\ Main.tanks twoAssigned3 = Main.tanks oneAssigned3
       /\ Main.healers twoAssigned3 = Main.healers oneAssigned3
       /\ Main.dps twoAssigned3 = Main.dps oneAssigned3)
      \/ exists l1 x l2,
           Main.instances oneAssigned3 = l1 ++ x :: l2
           /\ Main.instances twoAssigned3 = l1 ++ setHasParty true x :: l2
           /\ isFree x = true
           /\ existsb isFree l1 = false
           /\ (forall y, In y (Main.instances oneAssigned3) ->
                         isFree y = true -> id x <= id y)
           /\ Main.tanks twoAssigned3 = Main.tanks oneAssigned3 - 1
           /\ Main.healers twoAssigned3 = Main.healers oneAssigned3 - 1
           /\ Main.dps twoAssigned3 = Main.dps oneAssigned3 - 3).
Proof.
  assert (Hr : Main.reachable threeInstances oneAssigned3)
    by (apply (reachable_run threeInstances [LSched]); reflexivity).
  split; [split; [exact Hr | reflexivity]|].
  apply (one_assignment_to_lowest_free_id threeInstances oneAssigned3 twoAssigned3);
    [exact Hr | reflexivity].
Defined.

(** ** The two versions *)

Section Versions.

Lemma schedulerThread_core s :
  option_map Part000.core (Part000.schedulerThread s)
  = Main.schedulerThread (Part000.core s).
Proof.
  unfold Part000.schedulerThread, Main.schedulerThread.
  destruct s as [tk hl dp lo hi pn stop insts sch]. simpl.
  destruct sch; [|reflexivity].
  change (Part000.wakeCondition (Part000.mkState tk hl dp lo hi pn stop insts SchedLoop))
    with (Main.wakeCondition (Main.mkState tk hl dp lo hi stop insts SchedLoop)).
  destruct (Main.wakeCondition _); simpl; [|reflexivity].
  destruct stop; [reflexivity|].
  rewrite assignLoop_core.
  destruct (Main.assignLoop tk hl dp insts) as [[[[tk' hl'] dp'] l'] a].
  destruct (negb (enoughPlayers tk' hl' dp') && negb (existsb isBusy l'));
    reflexivity.
Qed.

Lemma instanceStep_core k d s :
  option_map Part000.core (Part000.instanceStep k d s)
  = Main.instanceStep k d (Part000.core s).
Proof.
  unfold Part000.instanceStep, Main.instanceStep.
  destruct s as [tk hl dp lo hi pn stop insts sch]. simpl.
  destruct (insts !! k) as [inst|]; [|reflexivity].
  destruct (instanceThread stop lo hi d inst); reflexivity.
Qed.

Lemma step_core l s :
  option_map Part000.core (Part000.step l s) = Main.step l (Part000.core s).
Proof.
  destruct l; [apply schedulerThread_core | apply instanceStep_core].
Qed.

Lemma trace_core ls s :
  map Part000.core (Part000.trace ls s) = Main.trace ls (Part000.core s).
Proof.
  revert s. induction ls as [|l ls IH]; intros s; simpl; [reflexivity|].
  f_equal. rewrite <- step_core.
  destruct (Part000.step l s) as [s'|]; simpl; [apply IH | reflexivity].
Qed.

End Versions.

(** C8.  The two versions have the same core.  From the same configuration
    and under the same schedule (the same order of thread steps and the same
    drawn durations), the states that src/unnamed/part_000 goes through,
    with [partyNum] forgotten, are the states that src/main.cpp goes
    through: the same pool counters, the same fields of every instance and
    the same [stopFlag], step after step, and the same steps are enabled. *)
Theorem versions_have_the_same_core c ls :
  map Part000.core (Part000.trace ls (Part000.init c))
  = Main.trace ls (Main.init c).
Proof. apply (trace_core ls (Part000.init c)). Qed.

(** ** The run of a dungeon *)

Section Run.



End Run.



(** ** No instance *)

(** With no instance the first wake cycle always runs, and it sets
    [stopFlag] exactly when the pool cannot form a party. *)
Lemma no_instance_first_cycle c :
  cfg_n c <= 0 ->
  exists s',
    Main.schedulerThread (Main.init c) = Some s'
    /\ Main.stopFlag s'
       = negb (enoughPlayers (cfg_tanks c) (cfg_healers c) (cfg_dps c)).
Proof.
  intros Hn. unfold Main.schedulerThread, Main.init, Main.wakeCondition, makeInstances.
  replace (Z.to_nat (cfg_n c)) with 0%nat by lia. simpl.
  rewrite orb_true_r. simpl.
  destruct (enoughPlayers (cfg_tanks c) (cfg_healers c) (cfg_dps c)); simpl;
    eexists; split; reflexivity.
Qed.

(** C1, at the input where the program departs from it.  With no instance
    and players for one party, the first wake cycle of the scheduler does
    not set [stopFlag]: it gives back the initial state, so does any number
    of wake cycles, and no other thread can take a step.  The first wake
    cycle of src/unnamed/part_000 gives back its initial state too. *)
Theorem no_instance_with_players_never_stops :
  Main.schedulerThread (Main.init noInstanceConfig) = Some (Main.init noInstanceConfig)
  /\ Main.stopFlag (Main.init noInstanceConfig) = false
  /\ (forall n, Main.run (repeat LSched n) (Main.init noInstanceConfig)
                = Some (Main.init noInstanceConfig))
  /\ (forall k d, Main.step (LInst k d) (Main.init noInstanceConfig) = None)
  /\ Part000.schedulerThread (Part000.init noInstanceConfig)
     = Some (Part000.init noInstanceConfig).
Proof.
  split; [reflexivity|]. split; [reflexivity|]. split; [|split].
  - induction n as [|n IH]; [reflexivity|]. simpl repeat.
    change (Main.run (LSched :: repeat LSched n) (Main.init noInstanceConfig))
      with (Main.run (repeat LSched n) (Main.init noInstanceConfig)).
    exact IH.
  - intros k d. reflexivity.
  - reflexivity.
Qed.

(** ** The clock of an instance *)

(** When every drawn duration is at least 1, the clock of an instance in a
    run stays between 0 and the duration of the run, and the clock of a
    free instance is 0. *)
Lemma clock_within_duration c s k inst :
  1 <= cfg_t1 c ->
  Main.reachable c s ->
  Main.instances s !! k = Some inst ->
  (isBusy inst = true -> 0 <= currentTimeElapsed inst <= currDungeonDuration inst)
  /\ (isFree inst = true -> currentTimeElapsed inst = 0).
Proof.
  intros Ht1 Hs Hk. pose proof (reachable_invariant _ _ Hs) as I.
  pose proof (Forall_lookup_1 _ _ _ _ (inv_ok _ _ I) Hk) as Hok.
  pose proof (Forall_lookup_1 _ _ _ _ (inv_dur _ _ I) Hk) as Hdur.
  unfold instanceOk, durationFrom in *. rewrite isFree_true.
  destruct (worker inst); intuition (try congruence; try lia).
Qed.

(** C5, at the input where the program departs from it.  The configuration
    with one instance, players for one party and durations from 0 to 0 is
    accepted by the input validation; after the assignment, the start of the
    run and the first tick, the instance is occupied ([hasParty] and
    [running] are set) with [currentTimeElapsed = 1] and
    [currDungeonDuration = 0], so the clock is above the duration; the same
    schedule brings src/unnamed/part_000 to the same instance. *)
Theorem zero_duration_clock_exceeds_duration :
  Part000.validConfig zeroDurationConfig = true
  /\ exists s inst,
       Main.run zeroDurationSchedule (Main.init zeroDurationConfig) = Some s
       /\ Main.instances s !! 0%nat = Some inst
       /\ hasParty inst = true /\ running inst = true
       /\ currentTimeElapsed inst = 1 /\ currDungeonDuration inst = 0
       /\ ~ (0 <= currentTimeElapsed inst <= currDungeonDuration inst)
       /\ last (Part000.trace zeroDurationSchedule (Part000.init zeroDurationConfig))
          = Some (Part000.mkState 0 0 0 0 0 2 false [inst] SchedLoop).
Proof.
  split; [reflexivity|].
  exists (Main.mkState 0 0 0 0 0 false [mkInstance 1 true true 0 0 1 0 (AtLoop 0 1)]
            SchedLoop), (mkInstance 1 true true 0 0 1 0 (AtLoop 0 1)).
  do 6 (split; [reflexivity|]). split; [simpl; lia | reflexivity].
Qed.

(** ** Scenario A *)

Section ScenarioA.

Lemma statesA_eq :
  statesA
  = [ Main.init scenarioA;
      assignedA;
      Main.mkState 0 0 0 2 2 false
        [mkInstance 1 true true 0 0 0 2 (AtFirstTick 2)] SchedLoop;
      midRunA;
      Main.mkState 0 0 0 2 2 false
        [mkInstance 1 true true 0 0 2 2 (AtLoop 2 2)] SchedLoop;
      Main.mkState 0 0 0 2 2 false
        [mkInstance 1 false false 1 2 0 2 AtWait] SchedLoop;
      Main.mkState 0 0 0 2 2 true
        [mkInstance 1 false false 1 2 0 2 AtWait] SchedReturned;
      finalA ].
Proof. reflexivity. Qed.

(** In scenario A every state has at most one successor: the next state
    of the list.  The step from position 0 is the only assignment, the
    steps from positions 2 and 3 are the only ticks. *)
Lemma stepA i s l s' :
  statesA !! i = Some s ->
  Main.step l s = Some s' ->
  statesA !! S i = Some s'
  /\ assignmentAt l s = (Nat.min 1 (S i) - Nat.min 1 i)%nat
  /\ tickAt 0 s s'
     = ((Nat.min 4 (S i) - Nat.min 2 (S i)) - (Nat.min 4 i - Nat.min 2 i))%nat.
Proof.
  rewrite statesA_eq.
  do 8 (destruct i as [|i];
        [ intros [= <-]; destruct l as [|[|k] d];
          [ try discriminate; intros [= <-]; repeat split; reflexivity
          | unfold Main.step, Main.instanceStep, instanceThread; simpl;
            try discriminate;
            try (destruct ((2 <=? d) && (d <=? 2)) eqn:Hd; [|discriminate];
                 apply andb_true_iff in Hd as [H1%Z.leb_le H2%Z.leb_le];
                 assert (d = 2) as -> by lia);
            intros [= <-]; repeat split; reflexivity
          | discriminate ]
        | ]).
  discriminate.
Qed.

Lemma runA ls :
  forall i s0 s,
    statesA !! i = Some s0 ->
    Main.run ls s0 = Some s ->
    statesA !! (i + length ls)%nat = Some s
    /\ assignments ls s0 = (Nat.min 1 (i + length ls) - Nat.min 1 i)%nat
    /\ ticksOf 0 ls s0
       = ((Nat.min 4 (i + length ls) - Nat.min 2 (i + length ls))
          - (Nat.min 4 i - Nat.min 2 i))%nat.
Proof.
  induction ls as [|l ls IH]; intros i s0 s Hi;
    cbn [Main.run assignments ticksOf length].
  - intros [= <-]. rewrite Nat.add_0_r. repeat split; [done | lia | lia].
  - destruct (Main.step l s0) as [s1|] eqn:Hstep; [|discriminate].
    intros Hrun. destruct (stepA _ _ _ _ Hi Hstep) as (Hi1 & Ha & Ht).
    destruct (IH _ _ _ Hi1 Hrun) as (Hl & Has & Hts).
    replace (i + S (length ls))%nat with (S i + length ls)%nat by lia.
    rewrite Ha, Ht, Has, Hts. repeat split; [done | lia | lia].
Qed.

(** Before the last state some thread can take a step. *)
Lemma progressA i l s :
  scheduleA !! i = Some l -> statesA !! i = Some s -> Main.step l s <> None.
Proof.
  rewrite statesA_eq. unfold scheduleA.
  do 7 (destruct i as [|i]; [intros [= <-] [= <-]; discriminate|]).
  discriminate.
Qed.

Lemma finalA_terminated : Main.terminated finalA.
Proof. intros [|[|k] d]; reflexivity. Qed.

End ScenarioA.

(** C7.  Scenario A: one instance, the pool (1, 1, 3), durations from 2 to
    2.  The schedule [scheduleA] ends in [finalA], where no thread can move:
    the pool is (0, 0, 0), [stopFlag] is set, and the instance has
    [partiesServed = 1] and [totalTime = 2].  Every other schedule is a
    beginning of the same run: it has at most 7 steps, at most one
    assignment and at most 2 ticks, and when it ends in a state where no
    thread can move, that state is [finalA], reached after exactly one
    assignment and exactly 2 ticks of the clock. *)
Theorem scenario_A_runs_once_for_two_ticks :
  Main.run scheduleA (Main.init scenarioA) = Some finalA
  /\ Main.terminated finalA
  /\ (Main.tanks finalA, Main.healers finalA, Main.dps finalA) = (0, 0, 0)
  /\ Main.stopFlag finalA = true
  /\ map partiesServed (Main.instances finalA) = [1]
  /\ map totalTime (Main.instances finalA) = [2]
  /\ forall ls s,
       Main.run ls (Main.init scenarioA) = Some s ->
       (length ls <= 7)%nat
       /\ (assignments ls (Main.init scenarioA) <= 1)%nat
       /\ (ticksOf 0 ls (Main.init scenarioA) <= 2)%nat
       /\ (Main.terminated s ->
           s = finalA
           /\ assignments ls (Main.init scenarioA) = 1%nat
           /\ ticksOf 0 ls (Main.init scenarioA) = 2%nat).
Proof.
  split; [reflexivity|]. split; [exact finalA_terminated|].
  do 4 (split; [reflexivity|]).
  intros ls s Hrun.
  destruct (runA ls 0%nat (Main.init scenarioA) s eq_refl Hrun) as (Hl & Ha & Ht).
  change (0 + length ls)%nat with (length ls) in Hl, Ha, Ht.
  pose proof (lookup_lt_Some _ _ _ Hl) as Hlen.
  rewrite statesA_eq in Hlen. simpl in Hlen.
  split; [lia|]. split; [lia|]. split; [lia|]. intros Hterm.
  assert (length ls = 7%nat) as E7.
  { destruct (decide (length ls = 7%nat)) as [E|E]; [exact E|].
    destruct (scheduleA !! length ls) as [l|] eqn:El.
    - exfalso. exact (progressA _ _ _ El Hl (Hterm l)).
    - apply lookup_ge_None in El. simpl in El. lia. }
  rewrite E7 in Hl, Ha, Ht. rewrite statesA_eq in Hl. simpl in Hl, Ha, Ht.
  split; [congruence|]. split; assumption.
Qed.

Lemma scenario_A_runs_once_for_two_ticks_witness :
  Main.run scheduleA (Main.init scenarioA) = Some finalA
  /\ (length scheduleA <= 7)%nat
  /\ (assignments scheduleA (Main.init scenarioA) <= 1)%nat
  /\ (ticksOf 0 scheduleA (Main.init scenarioA) <= 2)%nat
  /\ (Main.terminated finalA ->
      finalA = finalA
      /\ assignments scheduleA (Main.init scenarioA) = 1%nat
      /\ ticksOf 0 scheduleA (Main.init scenarioA) = 2%nat).
Proof.
  split; [reflexivity|].
  apply (proj2 (proj2 (proj2 (proj2 (proj2 (proj2
           scenario_A_runs_once_for_two_ticks))))) scheduleA finalA).
  reflexivity.
Defined.

(** ** Shutdown *)

Section Shutdown.

Lemma assignLoop_Forall (P : Instance -> Prop) tk hl dp l tk' hl' dp' l' a :
  Main.assignLoop tk hl dp l = (tk', hl', dp', l', a) ->
  (forall x, isFree x = true -> P x -> P (setHasParty true x)) ->
  Forall P l -> Forall P l'.
Proof.
  destruct (assignLoop_cases tk hl dp l)
    as [[-> _] | (l1 & x & l2 & -> & _ & Hx & _ & ->)]; intros [= <- <- <- <- <-];
    [done|].
  intros HP. rewrite !Forall_app, !Forall_cons. intros (H1 & H2 & H3). auto.
Qed.

Lemma existsb_false_Forall {A} (f : A -> bool) l :
  existsb f l = false <-> Forall (fun x => f x = false) l.
Proof.
  induction l as [|a l IH]; simpl.
  - split; [constructor | reflexivity].
  - rewrite orb_false_iff, Forall_cons, IH. reflexivity.
Qed.

Lemma makeInstances_fresh n :
  Forall (fun inst => inst = newInstance (id inst)) (makeInstances n).
Proof.
  unfold makeInstances. induction (seq 1 (Z.to_nat n)) as [|a l IH]; simpl;
    constructor; done.
Qed.

Lemma shutdown_init c : shutdownInvariant (Main.init c).
Proof.
  split; simpl.
  - split; discriminate.
  - eapply Forall_impl; [apply makeInstances_fresh|].
    intros inst ->. unfold exitedAfterStop. simpl. discriminate.
  - discriminate.
Qed.

Lemma shutdown_step c l s s' :
  invariant c s -> shutdownInvariant s -> Main.step l s = Some s' ->
  shutdownInvariant s'.
Proof.
  intros I [Hsched Hexit Hquiet]. destruct l as [|k d]; simpl.
  - intros H. apply schedulerThread_inv in H
      as (Hloop & _ & _ & _
          & [(Hstop & _) | (Hstop & Hl & Hstop' & Hsched')]).
    + apply Hsched in Hstop. congruence.
    + split.
      * rewrite Hsched'. destruct (Main.stopFlag s'); split; done.
      * eapply assignLoop_Forall; [exact Hl | | ].
        -- unfold exitedAfterStop. simpl. auto.
        -- eapply Forall_impl; [exact Hexit|]. unfold exitedAfterStop.
           intros inst Hi Hw. specialize (Hi Hw). congruence.
      * intros Hs. rewrite Hs in Hstop'. symmetry in Hstop'.
        apply andb_true_iff in Hstop' as [He Hb].
        apply negb_true_iff in He, Hb. split; [exact He|].
        apply existsb_false_Forall. exact Hb.
  - intros H. apply instanceStep_inv in H as (inst & inst' & Hk & Hth & ->).
    pose proof (Forall_lookup_1 _ _ _ _ (inv_ok _ _ I) Hk) as Hok.
    pose proof (Forall_lookup_1 _ _ _ _ Hexit Hk) as Hex.
    apply instanceThread_inv in Hth
      as [(Hw & Hs & ->) | [(Hw & Hs & Hp & Hd & ->) | [(du & Hw & ->)
          | [(du & i & Hw & Hi & ->) | (du & i & Hw & Hi & ->)]]]];
      (split; simpl; [exact Hsched | apply Forall_insert; [exact Hexit|] | ]);
      unfold exitedAfterStop; simpl; try discriminate; try done.
    + intros _. destruct (Hquiet Hs) as [He Hb]. split; [exact He|].
      apply Forall_insert; [exact Hb|].
      pose proof (Forall_lookup_1 _ _ _ _ Hb Hk) as Hbi. exact Hbi.
    + intros Hs'. congruence.
    + intros Hs. destruct (Hquiet Hs) as [_ Hb].
      pose proof (Forall_lookup_1 _ _ _ _ Hb Hk) as Hbi. simpl in Hbi.
      unfold instanceOk in Hok. rewrite Hw in Hok. unfold isBusy in Hbi.
      destruct Hok as (Hp & _). rewrite Hp in Hbi. discriminate.
    + intros Hs. destruct (Hquiet Hs) as [_ Hb].
      pose proof (Forall_lookup_1 _ _ _ _ Hb Hk) as Hbi. simpl in Hbi.
      unfold instanceOk in Hok. rewrite Hw in Hok. unfold isBusy in Hbi.
      destruct Hok as (Hp & _). rewrite Hp in Hbi. discriminate.
    + destruct (Main.stopFlag s); done.
    + intros Hs. destruct (Hquiet Hs) as [He Hb]. split; [exact He|].
      apply Forall_insert; [exact Hb|]. reflexivity.
Qed.

Lemma reachable_shutdown c s : Main.reachable c s -> shutdownInvariant s.
Proof.
  induction 1 as [|s l s' Hs IH Hstep]; [apply shutdown_init|].
  eapply shutdown_step; [apply reachable_invariant| |]; eassumption.
Qed.

End Shutdown.

Lemma stoppedA_reachable : Main.reachable scenarioA stoppedA.
Proof.
  apply (reachable_run scenarioA
           [LSched; LInst 0 2; LInst 0 2; LInst 0 2; LInst 0 2; LSched]).
  reflexivity.
Qed.

Lemma finalA_reachable : Main.reachable scenarioA finalA.
Proof. apply (reachable_run scenarioA scheduleA). reflexivity. Qed.

Lemma stopFlag_stays l s s' :
  Main.step l s = Some s' -> Main.stopFlag s = true -> Main.stopFlag s' = true.
Proof.
  destruct l as [|k d]; simpl; intros H Hs.
  - apply schedulerThread_inv in H
      as (_ & _ & _ & _ & [(_ & H' & _) | (Hn & _)]); congruence.
  - apply instanceStep_inv in H as (inst & inst' & _ & _ & ->). exact Hs.
Qed.

(** X1.  Shutdown is one-shot and is the only way out of the threads: in a
    reachable state [stopFlag] is set exactly when the scheduler thread has
    returned, a worker thread that has returned implies [stopFlag], and
    along any schedule a set [stopFlag] stays set. *)
Theorem stop_is_one_shot c s :
  Main.reachable c s ->
  (Main.stopFlag s = true <-> Main.scheduler s = SchedReturned)
  /\ (forall k inst,
        Main.instances s !! k = Some inst -> worker inst = Returned ->
        Main.stopFlag s = true)
  /\ (forall ls s',
        Main.run ls s = Some s' -> Main.stopFlag s = true ->
        Main.stopFlag s' = true).
Proof.
  intros Hs. destruct (reachable_shutdown _ _ Hs) as [Hsched Hexit _].
  split; [exact Hsched|]. split.
  - intros k inst Hk. exact (Forall_lookup_1 _ _ _ _ Hexit Hk).
  - clear. intros ls. revert s. induction ls as [|l ls IH]; simpl; intros s s'.
    + intros [= <-]. auto.
    + destruct (Main.step l s) as [s1|] eqn:H1; [|discriminate].
      intros Hrun Hstop. apply (IH s1 s' Hrun). eapply stopFlag_stays; eassumption.
Qed.

Lemma stop_is_one_shot_witness :
  Main.reachable scenarioA stoppedA
  /\ (Main.stopFlag stoppedA = true <-> Main.scheduler stoppedA = SchedReturned).
Proof.
  split; [exact stoppedA_reachable|].
  exact (proj1 (stop_is_one_shot scenarioA stoppedA stoppedA_reachable)).
Defined.

(** X2.  The scheduler stops only when nothing is left to do, and it stays
    so: in every reachable state with [stopFlag] set the pool cannot form a
    party and every instance is idle (no party, not running, clock 0). *)
Theorem shutdown_leaves_nothing_in_flight c s :
  Main.reachable c s ->
  Main.stopFlag s = true ->
  ~ (1 <= Main.tanks s /\ 1 <= Main.healers s /\ 3 <= Main.dps s)
  /\ forall k inst,
       Main.instances s !! k = Some inst ->
       hasParty inst = false /\ running inst = false
       /\ currentTimeElapsed inst = 0.
Proof.
  intros Hs Hstop. destruct (reachable_shutdown _ _ Hs) as [_ _ Hquiet].
  destruct (Hquiet Hstop) as [He Hb]. split.
  - rewrite <- enoughPlayers_true, He. discriminate.
  - intros k inst Hk.
    pose proof (Forall_lookup_1 _ _ _ _ Hb Hk) as Hbi. simpl in Hbi.
    apply orb_false_iff in Hbi as [Hp Hr].
    pose proof (Forall_lookup_1 _ _ _ _ (inv_ok _ _ (reachable_invariant _ _ Hs)) Hk)
      as Hok.
    unfold instanceOk in Hok. destruct (worker inst); intuition congruence.
Qed.

Lemma shutdown_leaves_nothing_in_flight_witness :
  (Main.reachable scenarioA stoppedA /\ Main.stopFlag stoppedA = true)
  /\ ~ (1 <= Main.tanks stoppedA /\ 1 <= Main.healers stoppedA
        /\ 3 <= Main.dps stoppedA).
Proof.
  split; [split; [exact stoppedA_reachable | reflexivity]|].
  exact (proj1 (shutdown_leaves_nothing_in_flight scenarioA stoppedA
                  stoppedA_reachable eq_refl)).
Defined.

(** X3.  After shutdown the threads only leave: from a reachable state with
    [stopFlag] set, the only steps are those of a worker that waits and
    returns; the pool and the fields of all instances stay as they are. *)
Theorem after_shutdown_only_exits c s l s' :
  Main.reachable c s ->
  Main.stopFlag s = true ->
  Main.step l s = Some s' ->
  exists k d inst,
    l = LInst k d /\ Main.instances s !! k = Some inst /\ worker inst = AtWait
    /\ s' = Main.mkState (Main.tanks s) (Main.healers s) (Main.dps s)
              (Main.t1 s) (Main.t2 s) true
              (<[k := setWorker Returned inst]> (Main.instances s))
              SchedReturned.
Proof.
  intros Hs Hstop Hstep. destruct (reachable_shutdown _ _ Hs) as [Hsched _ Hquiet].
  pose proof (proj1 Hsched Hstop) as Hret.
  destruct l as [|k d]; simpl in Hstep.
  - unfold Main.schedulerThread in Hstep. rewrite Hret in Hstep. discriminate.
  - apply instanceStep_inv in Hstep as (inst & inst' & Hk & Hth & ->).
    rewrite Hstop, Hret. rewrite Hstop in Hth.
    destruct (Hquiet Hstop) as [_ Hb].
    pose proof (Forall_lookup_1 _ _ _ _ Hb Hk) as Hbi. simpl in Hbi.
    apply orb_false_iff in Hbi as [Hp Hr].
    pose proof (Forall_lookup_1 _ _ _ _ (inv_ok _ _ (reachable_invariant _ _ Hs)) Hk)
      as Hok.
    unfold instanceOk in Hok.
    apply instanceThread_inv in Hth
      as [(Hw & _ & ->) | [(_ & Hf & _) | [(du & Hw & _)
          | [(du & i & Hw & _) | (du & i & Hw & _)]]]];
      try discriminate; try (rewrite Hw in Hok; intuition congruence).
    exists k, d, inst. done.
Qed.

Lemma after_shutdown_only_exits_witness :
  (Main.reachable scenarioA stoppedA /\ Main.stopFlag stoppedA = true
   /\ Main.step (LInst 0 2) stoppedA = Some finalA)
  /\ exists k d inst,
       LInst 0 2 = LInst k d /\ Main.instances stoppedA !! k = Some inst
       /\ worker inst = AtWait
       /\ finalA = Main.mkState (Main.tanks stoppedA) (Main.healers stoppedA)
                     (Main.dps stoppedA) (Main.t1 stoppedA) (Main.t2 stoppedA) true
                     (<[k := setWorker Returned inst]> (Main.instances stoppedA))
                     SchedReturned.
Proof.
  split; [split; [exact stoppedA_reachable | split; reflexivity]|].
  exact (after_shutdown_only_exits scenarioA stoppedA (LInst 0 2) finalA
           stoppedA_reachable eq_refl eq_refl).
Defined.

(** ** No deadlock *)

Lemma worker_enabled k d s inst inst' :
  Main.instances s !! k = Some inst ->
  instanceThread (Main.stopFlag s) (Main.t1 s) (Main.t2 s) d inst = Some inst' ->
  Main.step (LInst k d) s <> None.
Proof.
  intros Hk Hth. simpl. unfold Main.instanceStep. rewrite Hk, Hth. discriminate.
Qed.

(** A worker that is not blocked for good: some drawn duration lets it take
    a step, unless it has returned or waits without a party before
    shutdown. *)
Lemma worker_can_move k s inst :
  Main.t1 s <= Main.t2 s ->
  Main.instances s !! k = Some inst ->
  worker inst <> Returned ->
  (worker inst = AtWait -> hasParty inst = true \/ Main.stopFlag s = true) ->
  exists d, Main.step (LInst k d) s <> None.
Proof.
  intros Ht Hk Hw Hwait. exists (Main.t1 s).
  destruct (instanceThread (Main.stopFlag s) (Main.t1 s) (Main.t2 s) (Main.t1 s) inst)
    as [inst'|] eqn:Hth; [eapply worker_enabled; eassumption|].
  exfalso. unfold instanceThread in Hth.
  destruct (worker inst) as [|du|du i|]; try discriminate; try done.
  - destruct (Hwait eq_refl) as [Hp | Hs].
    + rewrite Hp in Hth. simpl in Hth. destruct (Main.stopFlag s); [discriminate|].
      replace ((Main.t1 s <=? Main.t1 s) && (Main.t1 s <=? Main.t2 s)) with true in Hth
        by (symmetry; apply andb_true_iff; split; apply Z.leb_le; lia).
      discriminate.
    + rewrite Hs, orb_true_r in Hth. discriminate.
  - destruct (i <? du); discriminate.
Qed.

(** X4.  No deadlock.  With [t1 <= t2], a reachable state in which no thread
    can take a step is a completed shutdown: [stopFlag] is set, the
    scheduler has returned and every worker has returned. *)
Theorem rest_only_after_shutdown c s :
  cfg_t1 c <= cfg_t2 c ->
  Main.reachable c s ->
  Main.terminated s ->
  Main.stopFlag s = true /\ Main.scheduler s = SchedReturned
  /\ forall k inst, Main.instances s !! k = Some inst -> worker inst = Returned.
Proof.
  intros Ht Hs Hterm.
  pose proof (reachable_invariant _ _ Hs) as I.
  destruct (reachable_shutdown _ _ Hs) as [Hsched Hexit Hquiet].
  assert (Ht' : Main.t1 s <= Main.t2 s)
    by (rewrite (inv_t1 _ _ I), (inv_t2 _ _ I); exact Ht).
  assert (Hmove : forall k inst,
             Main.instances s !! k = Some inst -> worker inst <> Returned ->
             worker inst = AtWait /\ hasParty inst = false
             /\ Main.stopFlag s = false).
  { intros k inst Hk Hw.
    destruct (worker inst) eqn:Ew; try done.
    - destruct (hasParty inst) eqn:Hp, (Main.stopFlag s) eqn:Hst; try done;
        destruct (worker_can_move k s inst Ht' Hk) as [d Hd];
        rewrite ?Ew; try done; auto; destruct (Hd (Hterm _)).
    - destruct (worker_can_move k s inst Ht' Hk) as [d Hd];
        rewrite ?Ew; try done; destruct (Hd (Hterm _)).
    - destruct (worker_can_move k s inst Ht' Hk) as [d Hd];
        rewrite ?Ew; try done; destruct (Hd (Hterm _)). }
  destruct (Main.stopFlag s) eqn:Hstop.
  - split; [reflexivity|]. split; [apply Hsched; reflexivity|].
    intros k inst Hk. destruct (worker inst) eqn:Ew; try reflexivity;
      destruct (Hmove k inst Hk) as (_ & _ & Hf); rewrite ?Ew; done.
  - exfalso. pose proof (Hterm LSched) as Hn. simpl in Hn.
    unfold Main.schedulerThread in Hn.
    destruct (Main.scheduler s) eqn:Esch;
      [|pose proof (proj2 Hsched eq_refl); congruence].
    destruct (Main.wakeCondition s) eqn:Hwake; simpl in Hn.
    { rewrite Hstop in Hn.
      destruct (Main.assignLoop _ _ _ _) as [[[[tk hl] dp] insts] a].
      destruct (negb (enoughPlayers tk hl dp) && negb (existsb isBusy insts));
        discriminate. }
    unfold Main.wakeCondition in Hwake. rewrite Hstop in Hwake.
    pose proof (inv_ok _ _ I) as Hoks.
    destruct (Main.instances s) as [|inst rest] eqn:El;
      [rewrite orb_true_r in Hwake; discriminate|].
    rewrite !orb_false_r in Hwake. apply orb_false_iff in Hwake as [_ Hfree].
    simpl in Hfree. apply orb_false_iff in Hfree as [Hfree _].
    assert (Hk : (inst :: rest) !! 0%nat = Some inst) by reflexivity.
    pose proof (Forall_lookup_1 _ _ _ _ Hoks Hk) as Hok.
    pose proof (Forall_lookup_1 _ _ _ _ Hexit Hk) as Hex.
    unfold instanceOk, exitedAfterStop in *.
    destruct (worker inst) eqn:Ew.
    + destruct (Hmove 0%nat inst Hk) as (_ & Hp & _); [rewrite Ew; done|].
      unfold isFree in Hfree. rewrite Hp in Hfree.
      destruct Hok as [Hr _]. rewrite Hr in Hfree. discriminate.
    + destruct (Hmove 0%nat inst Hk) as (Hw & _); [rewrite Ew; done|].
      congruence.
    + destruct (Hmove 0%nat inst Hk) as (Hw & _); [rewrite Ew; done|].
      congruence.
    + specialize (Hex eq_refl). discriminate.
Qed.

Lemma rest_only_after_shutdown_witness :
  (cfg_t1 scenarioA <= cfg_t2 scenarioA /\ Main.reachable scenarioA finalA
   /\ Main.terminated finalA)
  /\ Main.stopFlag finalA = true /\ Main.scheduler finalA = SchedReturned
  /\ forall k inst, Main.instances finalA !! k = Some inst -> worker inst = Returned.
Proof.
  split.
  - split; [simpl; lia|]. split; [exact finalA_reachable | exact finalA_terminated].
  - apply (rest_only_after_shutdown scenarioA finalA);
      [simpl; lia | exact finalA_reachable | exact finalA_terminated].
Defined.

(** ** What shutdown leaves *)

Lemma reachable_pool_nonneg c s :
  0 <= cfg_tanks c -> 0 <= cfg_healers c -> 0 <= cfg_dps c ->
  Main.reachable c s ->
  0 <= Main.tanks s /\ 0 <= Main.healers s /\ 0 <= Main.dps s.
Proof.
  intros Htk Hhl Hdp. induction 1 as [|s l s' _ IH Hstep]; [simpl; lia|].
  eapply pool_nonneg_step; eassumption.
Qed.

Lemma inFlight_idle l :
  Forall (fun inst => isBusy inst = false) l -> inFlight l = 0.
Proof.
  unfold inFlight. induction 1 as [|a l Ha _ IH]; simpl; [reflexivity|].
  rewrite IH. apply orb_false_iff in Ha as [-> _]. reflexivity.
Qed.

(** X5.  Shutdown comes only when the pool is used up as far as it can be:
    from a configuration without negative counters, in every reachable
    state with [stopFlag] set the instances have served
    [min tanks (min healers (dps / 3))] parties in total (the most the
    initial pool allows), and the leftover pool is the initial pool minus
    (1, 1, 3) times that number. *)
Theorem shutdown_after_every_possible_party c s :
  0 <= cfg_tanks c -> 0 <= cfg_healers c -> 0 <= cfg_dps c ->
  Main.reachable c s ->
  Main.stopFlag s = true ->
  servedTotal (Main.instances s)
  = Z.min (cfg_tanks c) (Z.min (cfg_healers c) (cfg_dps c / 3))
  /\ Main.tanks s = cfg_tanks c - servedTotal (Main.instances s)
  /\ Main.healers s = cfg_healers c - servedTotal (Main.instances s)
  /\ Main.dps s = cfg_dps c - 3 * servedTotal (Main.instances s).
Proof.
  intros Htk Hhl Hdp Hs Hstop.
  pose proof (reachable_invariant _ _ Hs) as I.
  destruct (reachable_pool_nonneg _ _ Htk Hhl Hdp Hs) as (Ntk & Nhl & Ndp).
  destruct (reachable_shutdown _ _ Hs) as [_ _ Hquiet].
  destruct (Hquiet Hstop) as [He Hb].
  pose proof (inv_tanks _ _ I) as Etk. pose proof (inv_healers _ _ I) as Ehl.
  pose proof (inv_dps _ _ I) as Edp.
  rewrite partiesTotal_split, (inFlight_idle _ Hb) in Etk, Ehl, Edp.
  assert (Hn : ~ (1 <= Main.tanks s /\ 1 <= Main.healers s /\ 3 <= Main.dps s))
    by (rewrite <- enoughPlayers_true, He; discriminate).
  pose proof (Z.div_mod (cfg_dps c) 3 ltac:(lia)) as Hdiv.
  pose proof (Z.mod_pos_bound (cfg_dps c) 3 ltac:(lia)) as Hmod.
  repeat split; try lia.
Qed.

Lemma shutdown_after_every_possible_party_witness :
  (0 <= cfg_tanks scenarioA /\ 0 <= cfg_healers scenarioA /\ 0 <= cfg_dps scenarioA
   /\ Main.reachable scenarioA stoppedA /\ Main.stopFlag stoppedA = true)
  /\ servedTotal (Main.instances stoppedA)
     = Z.min (cfg_tanks scenarioA) (Z.min (cfg_healers scenarioA) (cfg_dps scenarioA / 3)).
Proof.
  split.
  - repeat split; try (simpl; lia). exact stoppedA_reachable.
  - apply (shutdown_after_every_possible_party scenarioA stoppedA);
      first [exact stoppedA_reachable | reflexivity | simpl; lia].
Defined.

(** ** The first wake cycle *)

Lemma makeInstances_free_idle n :
  existsb isBusy (makeInstances n) = false
  /\ (existsb isFree (makeInstances n)
      || match makeInstances n with [] => true | _ :: _ => false end) = true.
Proof.
  unfold makeInstances. destruct (seq 1 (Z.to_nat n)) as [|a l]; [done|].
  split; [|reflexivity]. simpl. induction l as [|b l IH]; [reflexivity|exact IH].
Qed.

(** X6.  A configuration that cannot form even one party shuts down in the
    first wake cycle, whatever the number of instances: the scheduler sets
    [stopFlag] and returns, and leaves the pool and the instances as they
    were created. *)
Theorem insufficient_pool_stops_at_once c :
  ~ (1 <= cfg_tanks c /\ 1 <= cfg_healers c /\ 3 <= cfg_dps c) ->
  Main.schedulerThread (Main.init c)
  = Some (Main.mkState (cfg_tanks c) (cfg_healers c) (cfg_dps c) (cfg_t1 c)
            (cfg_t2 c) true (makeInstances (cfg_n c)) SchedReturned).
Proof.
  intros Hn. rewrite <- enoughPlayers_true in Hn. apply not_true_is_false in Hn.
  destruct (makeInstances_free_idle (cfg_n c)) as [Hbusy Hwake].
  unfold Main.schedulerThread, Main.wakeCondition. simpl.
  rewrite Hn. simpl. rewrite Hwake. simpl.
  destruct (assignLoop_cases (cfg_tanks c) (cfg_healers c) (cfg_dps c)
              (makeInstances (cfg_n c)))
    as [[-> _] | (l1 & x & l2 & _ & _ & _ & He & _)]; [|congruence].
  rewrite Hn, Hbusy. reflexivity.
Qed.

Lemma insufficient_pool_stops_at_once_witness :
  ~ (1 <= 0 /\ 1 <= 5 /\ 3 <= 9)
  /\ Main.schedulerThread (Main.init (mkConfig 2 0 5 9 1 3))
     = Some (Main.mkState 0 5 9 1 3 true (makeInstances 2) SchedReturned).
Proof.
  split; [lia|].
  apply (insufficient_pool_stops_at_once (mkConfig 2 0 5 9 1 3)). simpl. lia.
Defined.

(** ** The pool along a schedule *)

Lemma step_debit c l s s' :
  Main.reachable c s -> Main.step l s = Some s' ->
  Main.tanks s' = Main.tanks s - Z.of_nat (assignmentAt l s)
  /\ Main.healers s' = Main.healers s - Z.of_nat (assignmentAt l s)
  /\ Main.dps s' = Main.dps s - 3 * Z.of_nat (assignmentAt l s).
Proof.
  intros Hs. destruct (reachable_shutdown _ _ Hs) as [Hsched _ _].
  destruct l as [|k d]; simpl; intros H.
  - apply schedulerThread_inv in H
      as (Hloop & _ & _ & _ & [(Hstop & _) | (_ & Hl & _)]).
    + apply Hsched in Hstop. congruence.
    + apply assignLoop_effect in Hl as (-> & -> & -> & _).
      destruct (Main.partyAssigned s); simpl; lia.
  - apply instanceStep_inv in H as (inst & inst' & _ & _ & ->). simpl. lia.
Qed.

(** X7.  The pool is never replenished and is debited by whole parties
    only: along any schedule from a reachable state, [tanks] and [healers]
    go down by the number of wake cycles that assigned a party and [dps] by
    three times that number. *)
Theorem pool_drops_by_whole_parties c s ls s' :
  Main.reachable c s ->
  Main.run ls s = Some s' ->
  Main.tanks s' = Main.tanks s - Z.of_nat (assignments ls s)
  /\ Main.healers s' = Main.healers s - Z.of_nat (assignments ls s)
  /\ Main.dps s' = Main.dps s - 3 * Z.of_nat (assignments ls s).
Proof.
  revert s. induction ls as [|l ls IH]; intros s Hs; simpl.
  - intros [= <-]. lia.
  - destruct (Main.step l s) as [s1|] eqn:H1; [|discriminate].
    intros Hrun. destruct (step_debit _ _ _ _ Hs H1) as (E1 & E2 & E3).
    destruct (IH s1 (Main.reachable_step _ _ _ _ Hs H1) Hrun) as (F1 & F2 & F3).
    lia.
Qed.

Lemma pool_drops_by_whole_parties_witness :
  (Main.reachable scenarioA (Main.init scenarioA)
   /\ Main.run scheduleA (Main.init scenarioA) = Some finalA)
  /\ Main.tanks finalA = 1 - 1 /\ Main.healers finalA = 1 - 1
  /\ Main.dps finalA = 3 - 3 * 1.
Proof.
  split; [split; [constructor | reflexivity]|].
  exact (pool_drops_by_whole_parties scenarioA (Main.init scenarioA) scheduleA
           finalA (Main.reachable_init scenarioA) eq_refl).
Defined.

(** ** The vector of instances *)

Lemma map_seq_lookup {A} (f : nat -> A) m :
  forall a k x, map f (seq a m) !! k = Some x -> x = f (a + k)%nat /\ (k < m)%nat.
Proof.
  induction m as [|m IH]; intros a [|k] x; simpl; try discriminate.
  - intros [= <-]. rewrite Nat.add_0_r. split; [reflexivity | lia].
  - intros H. apply IH in H as [-> Hk].
    replace (S a + k)%nat with (a + S k)%nat by lia. split; [reflexivity | lia].
Qed.

Lemma map_id_lookup (l1 l2 : list Instance) :
  map id l1 = map id l2 ->
  forall k x, l1 !! k = Some x -> exists y, l2 !! k = Some y /\ id y = id x.
Proof.
  revert l2. induction l1 as [|a l1 IH]; intros [|b l2]; simpl; try discriminate.
  intros [= Hab Hl] [|k] x; simpl.
  - intros [= <-]. exists b. done.
  - apply IH. exact Hl.
Qed.

(** X8.  The instances are created once and stay: in every reachable state
    the vector has [n] instances (none when [n <= 0]), and the instance at
    position [k] has [id = k + 1]. *)
Theorem instances_are_fixed c s :
  Main.reachable c s ->
  length (Main.instances s) = Z.to_nat (cfg_n c)
  /\ forall k inst,
       Main.instances s !! k = Some inst -> id inst = Z.of_nat k + 1.
Proof.
  intros Hs. pose proof (inv_ids _ _ (reachable_invariant _ _ Hs)) as Hids.
  split.
  - apply (f_equal length) in Hids. rewrite !length_map in Hids.
    rewrite Hids. unfold makeInstances. rewrite length_map, length_seq.
    reflexivity.
  - intros k inst Hk.
    destruct (map_id_lookup _ _ Hids k inst Hk) as (y & Hy & <-).
    unfold makeInstances in Hy. apply map_seq_lookup in Hy as [-> _].
    simpl. lia.
Qed.

Lemma instances_are_fixed_witness :
  Main.reachable scenarioA midRunA
  /\ length (Main.instances midRunA) = Z.to_nat (cfg_n scenarioA).
Proof.
  split; [exact midRunA_reachable|].
  exact (proj1 (instances_are_fixed scenarioA midRunA midRunA_reachable)).
Defined.

(** ** The time of the runs *)

Lemma timeOk_step c l s s' :
  invariant c s ->
  Forall (timeOk (cfg_t1 c) (cfg_t2 c)) (Main.instances s) ->
  Main.step l s = Some s' ->
  Forall (timeOk (cfg_t1 c) (cfg_t2 c)) (Main.instances s').
Proof.
  intros I Hall. destruct l as [|k d]; simpl; intros H.
  - apply schedulerThread_inv in H
      as (_ & _ & _ & _ & [(_ & _ & _ & _ & _ & -> & _) | (_ & Hl & _)]); [done|].
    eapply assignLoop_Forall; [exact Hl | | exact Hall].
    intros x _. unfold timeOk. simpl. done.
  - apply instanceStep_inv in H as (inst & inst' & Hk & Hth & ->). simpl.
    apply Forall_insert; [exact Hall|].
    pose proof (Forall_lookup_1 _ _ _ _ Hall Hk) as Hi.
    rewrite (inv_t1 _ _ I), (inv_t2 _ _ I) in Hth.
    apply instanceThread_inv in Hth
      as [(Hw & _ & ->) | [(Hw & _ & Hp & Hd & ->) | [(du & Hw & ->)
          | [(du & i & Hw & Hlt & ->) | (du & i & Hw & Hge & ->)]]]];
      unfold timeOk in *; rewrite Hw in Hi; simpl.
    + tauto.
    + tauto.
    + tauto.
    + tauto.
    + destruct Hi as [Ht Hd]. split; [lia|].
      destruct (Main.stopFlag s); exact Logic.I.
Qed.

Lemma reachable_timeOk c s :
  Main.reachable c s -> Forall (timeOk (cfg_t1 c) (cfg_t2 c)) (Main.instances s).
Proof.
  induction 1 as [|s l s' Hs IH Hstep].
  - simpl. eapply Forall_impl; [apply makeInstances_fresh|].
    intros inst ->. unfold timeOk. simpl. lia.
  - eapply timeOk_step; [apply reachable_invariant| |]; eassumption.
Qed.

(** ** Progress *)

Section Progress.

Lemma sumZ_app l1 l2 : sumZ (l1 ++ l2) = sumZ l1 + sumZ l2.
Proof.
  unfold sumZ. induction l1 as [|a l1 IH]; simpl; [reflexivity|]. rewrite IH. lia.
Qed.

Lemma sumZ_map_insert {A} (f : A -> Z) (l : list A) k x x' :
  l !! k = Some x ->
  sumZ (map f (<[k := x']> l)) = sumZ (map f l) - f x + f x'.
Proof.
  revert k. induction l as [|a l IH]; intros [|k]; simpl; try discriminate.
  - intros [= ->]. lia.
  - intros Hk. rewrite (IH k Hk). lia.
Qed.

Lemma workLeft_nonneg hi inst : instanceOk inst -> 0 <= workLeft hi inst.
Proof.
  unfold instanceOk, workLeft, runBound.
  destruct (worker inst); [destruct (hasParty inst)| | |]; lia.
Qed.

Lemma sumZ_workLeft_nonneg hi l :
  Forall instanceOk l -> 0 <= sumZ (map (workLeft hi) l).
Proof.
  induction 1 as [|a l Ha _ IH]; simpl; [lia|].
  pose proof (workLeft_nonneg hi a Ha). lia.
Qed.

Lemma potential_nonneg c s : Main.reachable c s -> 0 <= potential s.
Proof.
  intros Hs. unfold potential.
  pose proof (sumZ_workLeft_nonneg (Main.t2 s) _
                (inv_ok _ _ (reachable_invariant _ _ Hs))) as Hsum.
  assert (0 <= runBound (Main.t2 s) * Z.max 0 (Main.tanks s))
    by (apply Z.mul_nonneg_nonneg; unfold runBound; lia).
  destruct (Main.scheduler s); lia.
Qed.

(** A step of a worker lowers what is left for it to do. *)
Lemma instanceThread_workLeft stop lo hi d inst inst' :
  instanceOk inst ->
  instanceThread stop lo hi d inst = Some inst' ->
  workLeft hi inst' < workLeft hi inst.
Proof.
  intros Hok H.
  apply instanceThread_inv in H
    as [(Hw & _ & ->) | [(Hw & _ & Hp & Hd & ->) | [(du & Hw & ->)
        | [(du & i & Hw & Hi & ->) | (du & i & Hw & Hi & ->)]]]];
    unfold instanceOk, workLeft, runBound in *; rewrite Hw in *; simpl.
  - destruct (hasParty inst); lia.
  - rewrite Hp. lia.
  - lia.
  - lia.
  - destruct stop; simpl; lia.
Qed.

Lemma step_progress c l s s' :
  Main.reachable c s -> Main.step l s = Some s' ->
  s' = s \/ potential s' < potential s.
Proof.
  intros Hs. pose proof (reachable_invariant _ _ Hs) as I.
  destruct (reachable_shutdown _ _ Hs) as [Hsched Hexit _].
  destruct l as [|k d]; simpl; intros H.
  - apply schedulerThread_inv in H
      as (Hloop & _ & E1 & E2 & [(Hstop & _) | (Hstop & Hl & Hstop' & Hsched')]).
    { apply Hsched in Hstop. congruence. }
    destruct (assignLoop_cases (Main.tanks s) (Main.healers s) (Main.dps s)
                (Main.instances s))
      as [[E _] | (l1 & x & l2 & El & _ & Hx & He & E)];
      rewrite E in Hl; injection Hl as Etk Ehl Edp Ei _.
    + destruct (Main.stopFlag s') eqn:Hs'.
      * right. unfold potential. rewrite Hsched', Hloop, E2, <- Etk, <- Ei. lia.
      * left. destruct s, s'; simpl in *. congruence.
    + right. apply enoughPlayers_true in He. apply isFree_true in Hx as [Hp Hr].
      assert (Hin : Forall instanceOk (l1 ++ x :: l2) /\
                    Forall (exitedAfterStop (Main.stopFlag s)) (l1 ++ x :: l2))
        by (rewrite <- El; split; [apply (inv_ok _ _ I) | exact Hexit]).
      destruct Hin as [Hoks Hexs].
      apply Forall_app in Hoks as [_ Hoks]. apply Forall_cons in Hoks as [Hok _].
      apply Forall_app in Hexs as [_ Hexs]. apply Forall_cons in Hexs as [Hex _].
      assert (Hx1 : workLeft (Main.t2 s) x = 1
                    /\ workLeft (Main.t2 s) (setHasParty true x)
                       = runBound (Main.t2 s)).
      { unfold workLeft, instanceOk, exitedAfterStop in *. simpl.
        destruct (worker x); try (rewrite Hp; done); try intuition congruence. }
      destruct Hx1 as [Hx1 Hx2].
      unfold potential. rewrite E2, <- Etk, <- Ei, El.
      rewrite !map_app, !sumZ_app. simpl. rewrite Hx1, Hx2, Hloop.
      rewrite !Z.max_r by lia.
      assert (0 <= match Main.scheduler s' with SchedLoop => 1 | SchedReturned => 0 end <= 1)
        by (destruct (Main.scheduler s'); lia).
      lia.
  - apply instanceStep_inv in H as (inst & inst' & Hk & Hth & ->).
    right. unfold potential. simpl.
    pose proof (Forall_lookup_1 _ _ _ _ (inv_ok _ _ I) Hk) as Hok.
    pose proof (instanceThread_workLeft _ _ _ _ _ _ Hok Hth).
    rewrite (sumZ_map_insert _ _ _ inst) by done. lia.
Qed.

Lemma potential_init c :
  potential (Main.init c)
  = (Z.max 1 (cfg_t2 c) + 3) * Z.max 0 (cfg_tanks c) + Z.max 0 (cfg_n c) + 1.
Proof.
  unfold potential, runBound, Main.init.
  cbn [Main.t2 Main.tanks Main.instances Main.scheduler]. unfold makeInstances.
  assert (H : forall l : list nat,
             sumZ (map (workLeft (cfg_t2 c)) (map (fun i => newInstance (Z.of_nat i)) l))
             = Z.of_nat (length l)).
  { induction l as [|a l IH]; [reflexivity|]. simpl length. rewrite Nat2Z.inj_succ.
    simpl map. unfold sumZ in *. simpl fold_right. rewrite IH.
    unfold workLeft. simpl. lia. }
  rewrite H, length_seq. lia.
Qed.

End Progress.

(** X10.  Every step makes progress or changes nothing: a step from a
    reachable state either gives back the same state (a wake cycle that
    neither assigns nor stops) or lowers [potential], which is never
    negative. *)
Theorem every_step_progresses_or_idles c l s s' :
  Main.reachable c s ->
  Main.step l s = Some s' ->
  0 <= potential s' /\ (s' = s \/ potential s' < potential s).
Proof.
  intros Hs Hstep. split.
  - apply (potential_nonneg c). eapply Main.reachable_step; eassumption.
  - eapply step_progress; eassumption.
Qed.

Lemma every_step_progresses_or_idles_witness :
  (Main.reachable scenarioA (Main.init scenarioA)
   /\ Main.step LSched (Main.init scenarioA) = Some assignedA)
  /\ 0 <= potential assignedA
  /\ (assignedA = Main.init scenarioA
      \/ potential assignedA < potential (Main.init scenarioA)).
Proof.
  split; [split; [constructor | reflexivity]|].
  exact (every_step_progresses_or_idles scenarioA LSched (Main.init scenarioA)
           assignedA (Main.reachable_init scenarioA) eq_refl).
Defined.

(** X11.  Termination bound: along any schedule from the initial state, the
    number of steps that change the state (those that lower [potential]) is
    at most [(max 1 t2 + 3) * max 0 tanks + max 0 n + 1]; all other steps
    are wake cycles that leave the state as it is. *)
Theorem boundedly_many_effective_steps c ls s :
  Main.run ls (Main.init c) = Some s ->
  Z.of_nat (progressSteps ls (Main.init c))
  <= (Z.max 1 (cfg_t2 c) + 3) * Z.max 0 (cfg_tanks c) + Z.max 0 (cfg_n c) + 1.
Proof.
  rewrite <- potential_init.
  assert (H : forall s0, Main.reachable c s0 -> Main.run ls s0 = Some s ->
              Z.of_nat (progressSteps ls s0) <= potential s0 - potential s).
  { induction ls as [|l ls IH]; intros s0 H0; simpl.
    - intros [= <-]. lia.
    - destruct (Main.step l s0) as [s1|] eqn:H1; [|discriminate].
      intros Hrun.
      specialize (IH s1 (Main.reachable_step _ _ _ _ H0 H1) Hrun).
      destruct (step_progress _ _ _ _ H0 H1) as [-> | Hlt].
      + rewrite Z.ltb_irrefl. simpl. lia.
      + destruct (potential s1 <? potential s0); lia. }
  intros Hrun. pose proof (H _ (Main.reachable_init c) Hrun).
  pose proof (potential_nonneg c s (reachable_run _ _ _ Hrun)). lia.
Qed.

Lemma boundedly_many_effective_steps_witness :
  Main.run scheduleA (Main.init scenarioA) = Some finalA
  /\ Z.of_nat (progressSteps scheduleA (Main.init scenarioA))
     <= (Z.max 1 2 + 3) * Z.max 0 1 + Z.max 0 1 + 1.
Proof.
  split; [reflexivity|].
  exact (boundedly_many_effective_steps scenarioA scheduleA finalA eq_refl).
Defined.

(** ** An eligible state is served *)

Lemma inFlight_app l1 l2 : inFlight (l1 ++ l2) = inFlight l1 + inFlight l2.
Proof. unfold inFlight. rewrite map_app. apply sumZ_app. Qed.

(** X12.  No eligible state is passed over: in a reachable state in which
    the scheduler has not stopped, the pool can form a party and some
    instance is free, the next wake cycle is enabled, assigns a party (the
    pool goes down by (1, 1, 3), one more instance holds a party) and does
    not stop. *)
Theorem eligible_state_gets_a_party c s k inst :
  Main.reachable c s ->
  Main.stopFlag s = false ->
  1 <= Main.tanks s -> 1 <= Main.healers s -> 3 <= Main.dps s ->
  Main.instances s !! k = Some inst -> isFree inst = true ->
  exists s',
    Main.schedulerThread s = Some s'
    /\ Main.partyAssigned s = true
    /\ Main.tanks s' = Main.tanks s - 1
    /\ Main.healers s' = Main.healers s - 1
    /\ Main.dps s' = Main.dps s - 3
    /\ inFlight (Main.instances s') = inFlight (Main.instances s) + 1
    /\ Main.stopFlag s' = false.
Proof.
  intros Hs Hstop Htk Hhl Hdp Hk Hfree.
  destruct (reachable_shutdown _ _ Hs) as [Hsched _ _].
  assert (He : enoughPlayers (Main.tanks s) (Main.healers s) (Main.dps s) = true)
    by (apply enoughPlayers_true; lia).
  assert (Hex : existsb isFree (Main.instances s) = true).
  { apply existsb_exists. exists inst. split; [|exact Hfree].
    apply list_elem_of_In. eapply list_elem_of_lookup_2. exact Hk. }
  assert (Hloop : Main.scheduler s = SchedLoop).
  { destruct (Main.scheduler s); [reflexivity|].
    pose proof (proj2 Hsched eq_refl). congruence. }
  destruct (assignLoop_cases (Main.tanks s) (Main.healers s) (Main.dps s)
              (Main.instances s))
    as [[_ [E | E]] | (l1 & x & l2 & El & _ & Hx & _ & E)]; try congruence.
  unfold Main.schedulerThread, Main.partyAssigned, Main.wakeCondition.
  rewrite Hloop, He, Hstop, E. simpl.
  assert (Hbusy : existsb isBusy (l1 ++ setHasParty true x :: l2) = true).
  { rewrite existsb_app. simpl. apply orb_true_r. }
  rewrite Hbusy, andb_false_r. eexists. split; [reflexivity|]. simpl.
  repeat split. rewrite El, !inFlight_app. unfold inFlight. simpl.
  apply isFree_true in Hx as [-> _]. unfold sumZ, b2z. simpl. lia.
Qed.

Lemma eligible_state_gets_a_party_witness :
  (Main.reachable scenarioA (Main.init scenarioA)
   /\ Main.stopFlag (Main.init scenarioA) = false
   /\ 1 <= Main.tanks (Main.init scenarioA)
   /\ 1 <= Main.healers (Main.init scenarioA)
   /\ 3 <= Main.dps (Main.init scenarioA)
   /\ Main.instances (Main.init scenarioA) !! 0%nat = Some (newInstance 1)
   /\ isFree (newInstance 1) = true)
  /\ exists s',
       Main.schedulerThread (Main.init scenarioA) = Some s'
       /\ Main.partyAssigned (Main.init scenarioA) = true
       /\ Main.tanks s' = Main.tanks (Main.init scenarioA) - 1
       /\ Main.healers s' = Main.healers (Main.init scenarioA) - 1
       /\ Main.dps s' = Main.dps (Main.init scenarioA) - 3
       /\ inFlight (Main.instances s')
          = inFlight (Main.instances (Main.init scenarioA)) + 1
       /\ Main.stopFlag s' = false.
Proof.
  split.
  - split; [constructor|]. repeat split; simpl; lia.
  - apply (eligible_state_gets_a_party scenarioA (Main.init scenarioA) 0%nat
             (newInstance 1));
      first [constructor | reflexivity | simpl; lia].
Defined.

(** ** The party counter of src/unnamed/part_000 *)

Lemma run_core ls :
  forall s s',
    Part000Run.run ls s = Some s' ->
    Main.run ls (Part000.core s) = Some (Part000.core s').
Proof.
  induction ls as [|l ls IH]; simpl; intros s s'.
  - intros [= <-]. reflexivity.
  - rewrite <- step_core. destruct (Part000.step l s) as [s1|]; [|discriminate].
    simpl. apply IH.
Qed.

Lemma partyNum_step c l s s1 :
  Main.reachable c (Part000.core s) ->
  Part000.step l s = Some s1 ->
  Part000.partyNum s1 - partiesTotal (Part000.instances s1)
  = Part000.partyNum s - partiesTotal (Part000.instances s).
Proof.
  intros Hs. pose proof (inv_ok _ _ (reachable_invariant _ _ Hs)) as Hoks.
  destruct s as [tk hl dp lo hi pn stop insts sch]. simpl in Hoks.
  destruct l as [|k d]; simpl.
  - unfold Part000.schedulerThread. simpl. destruct sch; [|discriminate].
    destruct (negb _); [discriminate|]. destruct stop; [intros [= <-]; reflexivity|].
    rewrite assignLoop_core.
    destruct (Main.assignLoop tk hl dp insts) as [[[[tk' hl'] dp'] l'] a] eqn:Hl.
    apply assignLoop_effect in Hl as (_ & _ & _ & Hp & _).
    destruct (negb (enoughPlayers tk' hl' dp') && negb (existsb isBusy l'));
      intros [= <-]; simpl; lia.
  - unfold Part000.instanceStep. simpl.
    destruct (insts !! k) as [inst|] eqn:Hk; [|discriminate].
    destruct (instanceThread stop lo hi d inst) as [inst'|] eqn:Hth; [|discriminate].
    intros [= <-]. simpl.
    pose proof (Forall_lookup_1 _ _ _ _ Hoks Hk) as Hok.
    destruct (instanceThread_keeps _ _ _ _ _ _ Hok Hth) as (_ & Hp & _).
    rewrite (partiesTotal_insert _ _ inst) by done. reflexivity.
Qed.

Lemma partyNum_run c ls s :
  Part000Run.run ls (Part000.init c) = Some s ->
  Main.reachable c (Part000.core s)
  /\ Part000.partyNum s = 1 + partiesTotal (Part000.instances s).
Proof.
  assert (H : forall s0,
              Main.reachable c (Part000.core s0) ->
              Part000Run.run ls s0 = Some s ->
              Main.reachable c (Part000.core s)
              /\ Part000.partyNum s - partiesTotal (Part000.instances s)
                 = Part000.partyNum s0 - partiesTotal (Part000.instances s0)).
  { induction ls as [|l ls IH]; simpl; intros s0 H0.
    - intros [= <-]. done.
    - destruct (Part000.step l s0) as [s1|] eqn:H1; [|discriminate].
      intros Hrun. rewrite <- (partyNum_step c l s0 s1 H0 H1). apply IH; [|exact Hrun].
      eapply Main.reachable_step; [exact H0|].
      rewrite <- step_core, H1. reflexivity. }
  intros Hrun.
  destruct (H (Part000.init c) (Main.reachable_init c) Hrun) as [Hr He].
  split; [exact Hr|].
  pose proof (inv_tanks _ _ (invariant_init c)) as Hinit. simpl in Hinit, He. lia.
Qed.

(** X13.  In src/unnamed/part_000, [partyNum] numbers the next party: along
    any schedule from the initial state it is 1 plus the number of parties
    assigned so far, that is the parties served by all instances plus the
    instances that hold one. *)
Theorem partyNum_counts_assignments c ls s :
  Part000Run.run ls (Part000.init c) = Some s ->
  Part000.partyNum s
  = 1 + servedTotal (Part000.instances s) + inFlight (Part000.instances s).
Proof.
  intros Hrun. destruct (partyNum_run c ls s Hrun) as [_ He].
  rewrite partiesTotal_split in He. lia.
Qed.

Lemma partyNum_counts_assignments_witness :
  Part000Run.run [LSched] (Part000.init scenarioA)
  = Some (Part000.mkState 0 0 0 2 2 2 false
            [mkInstance 1 true false 0 0 0 0 AtWait] SchedLoop)
  /\ Part000.partyNum
       (Part000.mkState 0 0 0 2 2 2 false
          [mkInstance 1 true false 0 0 0 0 AtWait] SchedLoop)
     = 1 + servedTotal
             (Part000.instances
                (Part000.mkState 0 0 0 2 2 2 false
                   [mkInstance 1 true false 0 0 0 0 AtWait] SchedLoop))
       + inFlight
           (Part000.instances
              (Part000.mkState 0 0 0 2 2 2 false
                 [mkInstance 1 true false 0 0 0 0 AtWait] SchedLoop)).
Proof.
  split; [reflexivity|].
  apply (partyNum_counts_assignments scenarioA [LSched]
           (Part000.mkState 0 0 0 2 2 2 false
              [mkInstance 1 true false 0 0 0 0 AtWait] SchedLoop)).
  reflexivity.
Defined.

(** ** Who writes what *)

Lemma assignLoop_marks_only tk hl dp l tk' hl' dp' l' a :
  Main.assignLoop tk hl dp l = (tk', hl', dp', l', a) ->
  map (setHasParty false) l' = map (setHasParty false) l
  /\ forall k inst,
       l !! k = Some inst -> hasParty inst = true -> l' !! k = Some inst.
Proof.
  destruct (assignLoop_cases tk hl dp l)
    as [[-> _] | (l1 & x & l2 & -> & _ & Hx & _ & ->)]; intros [= <- <- <- <- <-];
    [done|].
  apply isFree_true in Hx as [Hp _]. split.
  - rewrite !map_app. reflexivity.
  - intros k inst Hk Hparty.
    destruct (decide (k = length l1)) as [-> | Hne].
    + rewrite list_lookup_middle in Hk by reflexivity. congruence.
    + rewrite <- Hk. destruct (decide (k < length l1)%nat).
      * rewrite !lookup_app_l by lia. reflexivity.
      * rewrite !lookup_app_r by lia.
        destruct (k - length l1)%nat as [|j] eqn:Ej; [lia | reflexivity].
Qed.

(** X14.  The writers are separate.  A wake cycle of the scheduler writes
    nothing of an instance but [hasParty], which it only sets (an instance
    that holds a party is left as it is); a step of the worker at position
    [k] writes neither the pool nor [stopFlag] nor any other instance. *)
Theorem writers_are_separate l s s' :
  Main.step l s = Some s' ->
  match l with
  | LSched =>
      map (setHasParty false) (Main.instances s')
      = map (setHasParty false) (Main.instances s)
      /\ forall k inst,
           Main.instances s !! k = Some inst -> hasParty inst = true ->
           Main.instances s' !! k = Some inst
  | LInst k _ =>
      (Main.tanks s', Main.healers s', Main.dps s') 
      = (Main.tanks s, Main.healers s, Main.dps s)
      /\ Main.stopFlag s' = Main.stopFlag s
      /\ Main.scheduler s' = Main.scheduler s
      /\ forall j, j <> k -> Main.instances s' !! j = Main.instances s !! j
  end.
Proof.
  destruct l as [|k d]; simpl; intros H.
  - apply schedulerThread_inv in H
      as (_ & _ & _ & _ & [(_ & _ & _ & _ & _ & -> & _) | (_ & Hl & _)]); [done|].
    eapply assignLoop_marks_only. exact Hl.
  - apply instanceStep_inv in H as (inst & inst' & _ & _ & ->). simpl.
    repeat split. intros j Hj. apply list_lookup_insert_ne. congruence.
Qed.

Lemma writers_are_separate_witness :
  Main.step (LInst 0 2) assignedA
  = Some (Main.mkState 0 0 0 2 2 false
            [mkInstance 1 true true 0 0 0 2 (AtFirstTick 2)] SchedLoop)
  /\ (Main.tanks assignedA, Main.healers assignedA, Main.dps assignedA) = (0, 0, 0).
Proof.
  split; [reflexivity|].
  pose proof (writers_are_separate (LInst 0 2) assignedA
                (Main.mkState 0 0 0 2 2 false
                   [mkInstance 1 true true 0 0 0 2 (AtFirstTick 2)] SchedLoop)
                eq_refl) as H.
  symmetry. exact (proj1 H).
Defined.

(** ** Consecutive wake cycles *)

Lemma assignLoop_skips tk hl dp l1 x l2 :
  Forall (fun inst => hasParty inst = true) l1 ->
  isFree x = true -> enoughPlayers tk hl dp = true ->
  Main.assignLoop tk hl dp (l1 ++ x :: l2)
  = (tk - 1, hl - 1, dp - 3, l1 ++ setHasParty true x :: l2, true).
Proof.
  intros H1 Hx He. induction H1 as [|a l1 Ha _ IH]; simpl.
  - rewrite Hx, He. reflexivity.
  - unfold isFree at 1. rewrite Ha. simpl. rewrite IH. reflexivity.
Qed.

Lemma makeInstances_lookup_free n k x :
  makeInstances n !! k = Some x -> isFree x = true.
Proof.
  intros Hk. pose proof (Forall_lookup_1 _ _ _ _ (makeInstances_fresh n) Hk) as ->.
  reflexivity.
Qed.

(** X15.  Wake cycles in a row serve the instances in the order of the
    vector: when the pool can form [m] parties and there are at least [m]
    instances, [m] consecutive wake cycles from the initial state debit [m]
    parties, give a party to each of the first [m] instances and to no
    other, and do not stop. *)
Theorem first_cycles_fill_in_order c m :
  (0 < m)%nat ->
  Z.of_nat m <= cfg_n c ->
  Z.of_nat m <= cfg_tanks c -> Z.of_nat m <= cfg_healers c ->
  3 * Z.of_nat m <= cfg_dps c ->
  Main.run (repeat LSched m) (Main.init c)
  = Some (Main.mkState (cfg_tanks c - Z.of_nat m) (cfg_healers c - Z.of_nat m)
            (cfg_dps c - 3 * Z.of_nat m) (cfg_t1 c) (cfg_t2 c) false
            (firstAssigned m (makeInstances (cfg_n c))) SchedLoop).
Proof.
  intros Hm Hn Htk Hhl Hdp.
  assert (Hlen : length (makeInstances (cfg_n c)) = Z.to_nat (cfg_n c))
    by (unfold makeInstances; rewrite length_map, length_seq; reflexivity).
  assert (H : forall j,
             (j <= m)%nat ->
             Main.run (repeat LSched j) (Main.init c)
             = Some (Main.mkState (cfg_tanks c - Z.of_nat j)
                       (cfg_healers c - Z.of_nat j) (cfg_dps c - 3 * Z.of_nat j)
                       (cfg_t1 c) (cfg_t2 c) false
                       (firstAssigned j (makeInstances (cfg_n c))) SchedLoop)).
  { induction j as [|j IH]; intros Hj.
    - simpl. unfold Main.init, firstAssigned. rewrite take_0, drop_0. simpl.
      do 2 f_equal; lia.
    - replace (repeat LSched (S j)) with (repeat LSched j ++ [LSched])
        by (rewrite <- repeat_cons; reflexivity).
      assert (Happ : forall l1 l2 s0,
                 Main.run (l1 ++ l2) s0
                 = match Main.run l1 s0 with
                   | Some s1 => Main.run l2 s1
                   | None => None
                   end).
      { induction l1 as [|a l1 IHl]; intros l2 s0; simpl; [reflexivity|].
        destruct (Main.step a s0); [apply IHl | reflexivity]. }
      rewrite Happ, IH by lia. clear Happ IH.
      destruct (makeInstances (cfg_n c) !! j) as [x|] eqn:Hx;
        [|apply lookup_ge_None in Hx; lia].
      pose proof (makeInstances_lookup_free _ _ _ Hx) as Hfree.
      cbn [Main.run Main.step]. unfold Main.schedulerThread, Main.wakeCondition.
      cbn [Main.scheduler Main.tanks Main.healers Main.dps Main.stopFlag
           Main.instances Main.t1 Main.t2].
      assert (He : enoughPlayers (cfg_tanks c - Z.of_nat j)
                     (cfg_healers c - Z.of_nat j) (cfg_dps c - 3 * Z.of_nat j) = true)
        by (apply enoughPlayers_true; lia).
      rewrite He. cbn [orb negb].
      unfold firstAssigned. rewrite (drop_S _ _ _ Hx).
      rewrite assignLoop_skips; [|apply Forall_map, Forall_true; reflexivity|done..].
      rewrite existsb_app. cbn [existsb isBusy setHasParty hasParty orb].
      rewrite orb_true_r, andb_false_r.
      rewrite (take_S_r _ _ _ Hx), map_app, <- app_assoc. cbn [map app].
      do 2 f_equal; lia. }
  apply H. lia.
Qed.

Lemma first_cycles_fill_in_order_witness :
  ((0 < 2)%nat /\ Z.of_nat 2 <= 3 /\ Z.of_nat 2 <= 2 /\ Z.of_nat 2 <= 2
   /\ 3 * Z.of_nat 2 <= 6)
  /\ Main.run (repeat LSched 2) (Main.init (mkConfig 3 2 2 6 1 1))
     = Some (Main.mkState (2 - Z.of_nat 2) (2 - Z.of_nat 2) (6 - 3 * Z.of_nat 2)
               1 1 false (firstAssigned 2 (makeInstances 3)) SchedLoop).
Proof.
  split; [lia|].
  apply (first_cycles_fill_in_order (mkConfig 3 2 2 6 1 1) 2); simpl; lia.
Defined.

(** ** Shutdown can always be reached *)

Section Liveness.

Lemma instanceStep_progress c k d s s' :
  Main.reachable c s -> Main.instanceStep k d s = Some s' ->
  potential s' < potential s.
Proof.
  intros Hs H. apply instanceStep_inv in H as (inst & inst' & Hk & Hth & ->).
  unfold potential. simpl.
  pose proof (Forall_lookup_1 _ _ _ _ (inv_ok _ _ (reachable_invariant _ _ Hs)) Hk)
    as Hok.
  pose proof (instanceThread_workLeft _ _ _ _ _ _ Hok Hth).
  rewrite (sumZ_map_insert _ _ _ inst) by done. lia.
Qed.

Lemma find_mover stop (l : list Instance) :
  (forall k inst, l !! k = Some inst -> canMove stop inst = false)
  \/ exists k inst, l !! k = Some inst /\ canMove stop inst = true.
Proof.
  induction l as [|a l [IH | (k & inst & Hk & Hm)]].
  - left. intros k inst Hk. destruct k; discriminate.
  - destruct (canMove stop a) eqn:Ha.
    + right. exists 0%nat, a. done.
    + left. intros [|k] inst; simpl; [intros [= <-]; exact Ha | apply IH].
  - right. exists (S k), inst. done.
Qed.

Lemma final_terminated s :
  Main.scheduler s = SchedReturned ->
  (forall k inst, Main.instances s !! k = Some inst -> worker inst = Returned) ->
  Main.terminated s.
Proof.
  intros Hsch Hall [|k d]; simpl.
  - unfold Main.schedulerThread. rewrite Hsch. reflexivity.
  - unfold Main.instanceStep. destruct (Main.instances s !! k) as [inst|] eqn:Hk;
      [|reflexivity].
    unfold instanceThread. rewrite (Hall k inst Hk). reflexivity.
Qed.

Lemma reachable_length c s :
  Main.reachable c s -> length (Main.instances s) = Z.to_nat (cfg_n c).
Proof.
  intros Hs. pose proof (inv_ids _ _ (reachable_invariant _ _ Hs)) as Hids.
  apply (f_equal length) in Hids. rewrite !length_map in Hids.
  rewrite Hids. unfold makeInstances. rewrite length_map, length_seq. reflexivity.
Qed.

Lemma something_to_schedule c s :
  0 < cfg_n c
  \/ ~ (1 <= cfg_tanks c /\ 1 <= cfg_healers c /\ 3 <= cfg_dps c) ->
  Main.reachable c s ->
  Main.instances s <> []
  \/ enoughPlayers (Main.tanks s) (Main.healers s) (Main.dps s) = false.
Proof.
  intros Hc Hs. pose proof (reachable_length _ _ Hs) as Hlen.
  pose proof (reachable_invariant _ _ Hs) as I.
  pose proof (inv_tanks _ _ I) as Etk. pose proof (inv_healers _ _ I) as Ehl.
  pose proof (inv_dps _ _ I) as Edp.
  destruct (Main.instances s) as [|a l]; [|left; discriminate].
  right. simpl in Hlen. destruct Hc as [Hn | Hn]; [lia|].
  unfold partiesTotal, sumZ in *. simpl in *.
  apply not_true_is_false. rewrite enoughPlayers_true. lia.
Qed.

Lemma next_effective c s :
  cfg_t1 c <= cfg_t2 c ->
  Main.reachable c s ->
  Main.instances s <> []
  \/ enoughPlayers (Main.tanks s) (Main.healers s) (Main.dps s) = false ->
  (Main.stopFlag s = true /\ Main.terminated s)
  \/ exists l s', Main.step l s = Some s' /\ potential s' < potential s.
Proof.
  intros Ht Hs Hsome. pose proof (reachable_invariant _ _ Hs) as I.
  destruct (reachable_shutdown _ _ Hs) as [Hsched Hexit _].
  assert (Ht' : Main.t1 s <= Main.t2 s)
    by (rewrite (inv_t1 _ _ I), (inv_t2 _ _ I); exact Ht).
  destruct (find_mover (Main.stopFlag s) (Main.instances s))
    as [Hnone | (k & inst & Hk & Hm)].
  2:{ right. unfold canMove in Hm.
      destruct (worker_can_move k s inst Ht' Hk) as [d Hd].
      - destruct (worker inst); done.
      - intros Hw. rewrite Hw in Hm. apply orb_true_iff in Hm. exact Hm.
      - destruct (Main.step (LInst k d) s) as [s'|] eqn:Hstep; [|done].
        exists (LInst k d), s'. split; [exact Hstep|].
        exact (instanceStep_progress c k d s s' Hs Hstep). }
  destruct (Main.stopFlag s) eqn:Hstop.
  - left. split; [reflexivity|]. apply final_terminated; [apply Hsched; reflexivity|].
    intros k inst Hk. specialize (Hnone k inst Hk). unfold canMove in Hnone.
    destruct (worker inst); try done. rewrite orb_true_r in Hnone. discriminate.
  - right.
    assert (Hidle : Forall (fun inst => isFree inst = true) (Main.instances s)).
    { apply Forall_lookup_2. intros k inst Hk.
      specialize (Hnone k inst Hk). unfold canMove in Hnone.
      pose proof (Forall_lookup_1 _ _ _ _ (inv_ok _ _ I) Hk) as Hok.
      pose proof (Forall_lookup_1 _ _ _ _ Hexit Hk) as Hex.
      unfold instanceOk, exitedAfterStop in *. apply isFree_true.
      destruct (worker inst); try done.
      - rewrite orb_false_r in Hnone. tauto.
      - specialize (Hex eq_refl). discriminate. }
    assert (Hloop : Main.scheduler s = SchedLoop).
    { destruct (Main.scheduler s); [reflexivity|].
      pose proof (proj2 Hsched eq_refl). congruence. }
    assert (Hwake : Main.wakeCondition s = true).
    { unfold Main.wakeCondition. destruct (Main.instances s) as [|a l];
        [apply orb_true_r|].
      apply Forall_cons in Hidle as [Ha _]. simpl. rewrite Ha.
      rewrite orb_true_r. reflexivity. }
    destruct (Main.schedulerThread s) as [s'|] eqn:Hstep.
    2:{ unfold Main.schedulerThread in Hstep. rewrite Hloop, Hwake, Hstop in Hstep.
        simpl in Hstep.
        destruct (Main.assignLoop _ _ _ _) as [[[[tk hl] dp] insts] a].
        destruct (negb (enoughPlayers tk hl dp) && negb (existsb isBusy insts));
          discriminate. }
    exists LSched, s'. split; [exact Hstep|].
    destruct (step_progress c LSched s s' Hs Hstep) as [-> | Hlt]; [|exact Hlt].
    exfalso. apply schedulerThread_inv in Hstep
      as (_ & _ & _ & _ & [(Hst & _) | (_ & Hl & Hstop' & _)]); [congruence|].
    destruct (assignLoop_cases (Main.tanks s) (Main.healers s) (Main.dps s)
                (Main.instances s))
      as [[E [He | Hf]] | (l1 & x & l2 & _ & _ & _ & _ & E)];
      rewrite E in Hl; [clear Hl | clear Hl | inversion Hl; lia].
    + rewrite He in Hstop'.
      assert (Hb : existsb isBusy (Main.instances s) = false).
      { apply existsb_false_Forall. eapply Forall_impl; [exact Hidle|].
        intros inst Hf. apply isFree_true in Hf as [Hp Hr].
        unfold isBusy. rewrite Hp, Hr. reflexivity. }
      rewrite Hb in Hstop'. simpl in Hstop'. congruence.
    + destruct Hsome as [Hne | He].
      * destruct (Main.instances s) as [|a l]; [done|].
        apply Forall_cons in Hidle as [Ha _]. simpl in Hf. rewrite Ha in Hf.
        discriminate.
      * rewrite He in Hstop'.
        assert (Hb : existsb isBusy (Main.instances s) = false).
        { apply existsb_false_Forall. eapply Forall_impl; [exact Hidle|].
          intros inst Hfi. apply isFree_true in Hfi as [Hp Hr].
          unfold isBusy. rewrite Hp, Hr. reflexivity. }
        rewrite Hb in Hstop'. simpl in Hstop'. congruence.
Qed.

End Liveness.

(** X16.  Shutdown can always be reached.  With [t1 <= t2], and with at
    least one instance or a pool that cannot form a party, every reachable
    state has a schedule that leads to a state with [stopFlag] set in which
    no thread can take a step.  (With no instance and a pool that can form
    a party there is no such schedule: the scheduler polls for ever.) *)
Theorem shutdown_can_always_be_reached c s :
  cfg_t1 c <= cfg_t2 c ->
  0 < cfg_n c
  \/ ~ (1 <= cfg_tanks c /\ 1 <= cfg_healers c /\ 3 <= cfg_dps c) ->
  Main.reachable c s ->
  exists ls s',
    Main.run ls s = Some s' /\ Main.stopFlag s' = true /\ Main.terminated s'.
Proof.
  intros Ht Hc.
  assert (H : forall m s0,
              Z.to_nat (potential s0) = m -> Main.reachable c s0 ->
              exists ls s', Main.run ls s0 = Some s' /\ Main.stopFlag s' = true
                            /\ Main.terminated s').
  { induction m as [m IH] using lt_wf_ind. intros s0 Hm H0.
    destruct (next_effective c s0 Ht H0 (something_to_schedule c s0 Hc H0))
      as [[Hstop Hterm] | (l & s1 & Hstep & Hlt)].
    - exists [], s0. done.
    - pose proof (Main.reachable_step _ _ _ _ H0 Hstep) as H1.
      pose proof (potential_nonneg c s1 H1) as Hnn.
      destruct (IH (Z.to_nat (potential s1)) ltac:(lia) s1 eq_refl H1)
        as (ls & s' & Hrun & Hres).
      exists (l :: ls), s'. simpl. rewrite Hstep. done. }
  intros Hs. exact (H _ s eq_refl Hs).
Qed.

Lemma shutdown_can_always_be_reached_witness :
  (cfg_t1 scenarioA <= cfg_t2 scenarioA
   /\ (0 < cfg_n scenarioA
       \/ ~ (1 <= cfg_tanks scenarioA /\ 1 <= cfg_healers scenarioA
             /\ 3 <= cfg_dps scenarioA))
   /\ Main.reachable scenarioA midRunA)
  /\ exists ls s',
       Main.run ls midRunA = Some s' /\ Main.stopFlag s' = true
       /\ Main.terminated s'.
Proof.
  split.
  - split; [simpl; lia|]. split; [left; simpl; lia | exact midRunA_reachable].
  - apply (shutdown_can_always_be_reached scenarioA midRunA);
      [simpl; lia | left; simpl; lia | exact midRunA_reachable].
Defined.

(** ** Validated configurations *)

Lemma reachable_served_nonneg c s :
  Main.reachable c s ->
  Forall (fun inst => 0 <= partiesServed inst) (Main.instances s).
Proof.
  induction 1 as [|s l s' Hs IH Hstep].
  - simpl. eapply Forall_impl; [apply makeInstances_fresh|].
    intros inst ->. simpl. lia.
  - destruct l as [|k d]; simpl in Hstep.
    + apply schedulerThread_inv in Hstep
        as (_ & _ & _ & _ & [(_ & _ & _ & _ & _ & -> & _) | (_ & Hl & _)]); [done|].
      eapply assignLoop_Forall; [exact Hl | | exact IH]. intros x _. simpl. done.
    + apply instanceStep_inv in Hstep as (inst & inst' & Hk & Hth & ->). simpl.
      apply Forall_insert; [exact IH|].
      pose proof (Forall_lookup_1 _ _ _ _ IH Hk) as Hi. simpl in Hi.
      apply instanceThread_inv in Hth
        as [(_ & _ & ->) | [(_ & _ & _ & _ & ->) | [(du & _ & ->)
            | [(du & i & _ & _ & ->) | (du & i & _ & _ & ->)]]]]; simpl; lia.
Qed.

Lemma partiesTotal_nonneg l :
  Forall (fun inst => 0 <= partiesServed inst) l -> 0 <= partiesTotal l.
Proof.
  induction 1 as [|a l Ha _ IH]; [unfold partiesTotal; simpl; lia|].
  rewrite partiesTotal_cons. unfold partiesOf. destruct (hasParty a); lia.
Qed.

(** X17.  What the input validation of src/unnamed/part_000 buys: from a
    configuration it accepts, in every state the program goes through the
    three counters of the pool are not negative and [partyNum] is between 1
    and [1 + min tanks (min healers (dps / 3))], so no more parties are
    numbered than the initial pool can form. *)
Theorem validated_pool_and_partyNum_bounds c ls s :
  Part000.validConfig c = true ->
  Part000Run.run ls (Part000.init c) = Some s ->
  0 <= Part000.tanks s /\ 0 <= Part000.healers s /\ 0 <= Part000.dps s
  /\ 1 <= Part000.partyNum s
     <= 1 + Z.min (cfg_tanks c) (Z.min (cfg_healers c) (cfg_dps c / 3)).
Proof.
  unfold Part000.validConfig. rewrite !andb_true_iff, !Z.leb_le.
  intros (((((Hn & Htk) & Hhl) & Hdp) & Ht1) & Ht2) Hrun.
  destruct (partyNum_run c ls s Hrun) as [Hr He].
  destruct (reachable_pool_nonneg _ _ Htk Hhl Hdp Hr) as (Ntk & Nhl & Ndp).
  pose proof (reachable_invariant _ _ Hr) as I.
  pose proof (inv_tanks _ _ I) as Etk. pose proof (inv_healers _ _ I) as Ehl.
  pose proof (inv_dps _ _ I) as Edp.
  pose proof (partiesTotal_nonneg _ (reachable_served_nonneg _ _ Hr)) as Hp.
  destruct s as [tk hl dp lo hi pn stop insts sch]. simpl in *.
  pose proof (Z.div_mod (cfg_dps c) 3 ltac:(lia)) as Hdiv.
  pose proof (Z.mod_pos_bound (cfg_dps c) 3 ltac:(lia)) as Hmod.
  repeat split; try lia.
Qed.

Lemma validated_pool_and_partyNum_bounds_witness :
  (Part000.validConfig scenarioA = true
   /\ Part000Run.run [LSched] (Part000.init scenarioA)
      = Some (Part000.mkState 0 0 0 2 2 2 false
                [mkInstance 1 true false 0 0 0 0 AtWait] SchedLoop))
  /\ 0 <= Part000.tanks
            (Part000.mkState 0 0 0 2 2 2 false
               [mkInstance 1 true false 0 0 0 0 AtWait] SchedLoop).
Proof.
  split; [split; reflexivity|].
  apply (validated_pool_and_partyNum_bounds scenarioA [LSched]
           (Part000.mkState 0 0 0 2 2 2 false
              [mkInstance 1 true false 0 0 0 0 AtWait] SchedLoop));
    reflexivity.
Defined.

(** ** The time of the runs, within the range of [int] *)

Section TimeInRange.

Lemma wrapInt_in_range z : INT_MIN <= z <= INT_MAX -> wrapInt z = z.
Proof.
  unfold INT_MIN, INT_MAX, wrapInt. intros Hz. rewrite Z.mod_small by lia. lia.
Qed.

Lemma partiesOf_le_total (l : list Instance) k inst :
  Forall (fun x => 0 <= partiesServed x) l ->
  l !! k = Some inst -> partiesOf inst <= partiesTotal l.
Proof.
  intros Hall. revert k. induction Hall as [|a l Ha Hl IH]; intros [|k]; simpl;
    try discriminate; rewrite partiesTotal_cons.
  - intros [= ->]. pose proof (partiesTotal_nonneg l Hl). lia.
  - intros Hk. specialize (IH k Hk).
    assert (0 <= partiesOf a) by (unfold partiesOf; destruct (hasParty a); lia).
    lia.
Qed.

Lemma reachable_parties_bound c s :
  0 <= cfg_tanks c -> 0 <= cfg_healers c -> 0 <= cfg_dps c ->
  Main.reachable c s ->
  partiesTotal (Main.instances s) <= maxParties c.
Proof.
  intros Htk Hhl Hdp Hs.
  destruct (reachable_pool_nonneg _ _ Htk Hhl Hdp Hs) as (Ntk & Nhl & Ndp).
  pose proof (reachable_invariant _ _ Hs) as I.
  pose proof (inv_tanks _ _ I) as Etk. pose proof (inv_healers _ _ I) as Ehl.
  pose proof (inv_dps _ _ I) as Edp.
  pose proof (Z.div_mod (cfg_dps c) 3 ltac:(lia)) as Hdiv.
  pose proof (Z.mod_pos_bound (cfg_dps c) 3 ltac:(lia)) as Hmod.
  unfold maxParties. lia.
Qed.

(** The time an instance has accounted for, and the room that is left for
    the run of the party it holds. *)
Lemma time_in_range c s k inst :
  0 <= cfg_tanks c -> 0 <= cfg_healers c -> 0 <= cfg_dps c ->
  0 <= cfg_t1 c <= cfg_t2 c ->
  cfg_t2 c * maxParties c <= INT_MAX ->
  Main.reachable c s ->
  Main.instances s !! k = Some inst ->
  cfg_t1 c * partiesServed inst <= totalTime inst <= cfg_t2 c * partiesServed inst
  /\ 0 <= totalTime inst <= INT_MAX
  /\ (hasParty inst = true -> totalTime inst + cfg_t2 c <= INT_MAX).
Proof.
  intros Htk Hhl Hdp Ht Hmax Hs Hk.
  pose proof (Forall_lookup_1 _ _ _ _ (reachable_timeOk _ _ Hs) Hk) as [Htime _].
  pose proof (reachable_served_nonneg _ _ Hs) as Hserved.
  pose proof (Forall_lookup_1 _ _ _ _ Hserved Hk) as Hp. simpl in Hp.
  pose proof (partiesOf_le_total _ _ _ Hserved Hk) as Hle.
  pose proof (reachable_parties_bound _ _ Htk Hhl Hdp Hs) as Hbound.
  assert (H1 : 0 <= cfg_t1 c * partiesServed inst)
    by (apply Z.mul_nonneg_nonneg; lia).
  assert (H2 : cfg_t2 c * partiesOf inst <= cfg_t2 c * maxParties c)
    by (apply Z.mul_le_mono_nonneg_l; lia).
  unfold partiesOf in H2.
  split; [exact Htime|]. split.
  - destruct (hasParty inst); lia.
  - intros Hparty. rewrite Hparty in H2. lia.
Qed.

End TimeInRange.

(** X9.  The time an instance reports is made of drawn durations and stays
    an [int].  From a configuration without negative counters, with
    [0 <= t1 <= t2] and [t2 * min tanks (min healers (dps / 3)) <= INT_MAX],
    in every reachable state [totalTime] of an instance lies between [t1]
    and [t2] times its [partiesServed] and between 0 and [INT_MAX]; the
    duration of a running instance lies between [t1] and [t2], and adding
    it to [totalTime] as an [int] gives the mathematical sum (the addition
    of the completion does not overflow). *)
Theorem totalTime_within_drawn_range c s k inst :
  0 <= cfg_tanks c -> 0 <= cfg_healers c -> 0 <= cfg_dps c ->
  0 <= cfg_t1 c <= cfg_t2 c ->
  cfg_t2 c * maxParties c <= INT_MAX ->
  Main.reachable c s ->
  Main.instances s !! k = Some inst ->
  cfg_t1 c * partiesServed inst <= totalTime inst <= cfg_t2 c * partiesServed inst
  /\ 0 <= totalTime inst <= INT_MAX
  /\ (running inst = true ->
      cfg_t1 c <= currDungeonDuration inst <= cfg_t2 c
      /\ wrapInt (totalTime inst + currDungeonDuration inst)
         = totalTime inst + currDungeonDuration inst).
Proof.
  intros Htk Hhl Hdp Ht Hmax Hs Hk.
  destruct (time_in_range c s k inst Htk Hhl Hdp Ht Hmax Hs Hk)
    as (Htime & Hrange & Hroom).
  split; [exact Htime|]. split; [exact Hrange|]. intros Hr.
  pose proof (Forall_lookup_1 _ _ _ _ (reachable_timeOk _ _ Hs) Hk) as [_ Hd].
  pose proof (Forall_lookup_1 _ _ _ _ (inv_ok _ _ (reachable_invariant _ _ Hs)) Hk)
    as Hok.
  unfold instanceOk in Hok.
  assert (Hdur : cfg_t1 c <= currDungeonDuration inst <= cfg_t2 c
                 /\ hasParty inst = true)
    by (destruct (worker inst); intuition (try congruence; try lia)).
  destruct Hdur as [Hdur Hparty]. specialize (Hroom Hparty).
  split; [exact Hdur|]. apply wrapInt_in_range. unfold INT_MIN, INT_MAX in *. lia.
Qed.

Lemma totalTime_within_drawn_range_witness :
  (0 <= cfg_tanks scenarioA /\ 0 <= cfg_healers scenarioA /\ 0 <= cfg_dps scenarioA
   /\ 0 <= cfg_t1 scenarioA <= cfg_t2 scenarioA
   /\ cfg_t2 scenarioA * maxParties scenarioA <= INT_MAX
   /\ Main.reachable scenarioA midRunA
   /\ Main.instances midRunA !! 0%nat = Some (mkInstance 1 true true 0 0 1 2 (AtLoop 2 1)))
  /\ 2 * 0 <= 0 <= 2 * 0
  /\ 0 <= 0 <= INT_MAX
  /\ (true = true -> 2 <= 2 <= 2 /\ wrapInt (0 + 2) = 0 + 2).
Proof.
  split.
  - repeat split; try (vm_compute; discriminate). exact midRunA_reachable.
  - apply (totalTime_within_drawn_range scenarioA midRunA 0%nat
             (mkInstance 1 true true 0 0 1 2 (AtLoop 2 1)));
      first [exact midRunA_reachable | reflexivity | simpl; lia
            | vm_compute; discriminate
            | split; vm_compute; discriminate].
Defined.

(** X18.  When every drawn duration is at least 1 and [totalTime] cannot
    leave the range of [int] (no negative counter in the configuration and
    [t2 * min tanks (min healers (dps / 3)) <= INT_MAX]), the time a
    completion adds to [totalTime] is the time the clock has ticked: in a
    reachable state, for an instance whose thread leaves the tick loop, the
    clock equals the duration of the run, the [int] addition of the clock to
    [totalTime] gives the mathematical sum, and the completing step sets
    [totalTime] to that sum, increments [partiesServed] and resets the
    clock.  (With duration 0 the clock is 1 and 0 is added.) *)
Theorem completion_accounts_for_the_ticks c s k inst duration i d :
  0 <= cfg_tanks c -> 0 <= cfg_healers c -> 0 <= cfg_dps c ->
  1 <= cfg_t1 c ->
  cfg_t2 c * maxParties c <= INT_MAX ->
  Main.reachable c s ->
  Main.instances s !! k = Some inst ->
  worker inst = AtLoop duration i -> duration <= i ->
  currentTimeElapsed inst = currDungeonDuration inst
  /\ wrapInt (totalTime inst + currentTimeElapsed inst)
     = totalTime inst + currentTimeElapsed inst
  /\ exists s' inst',
       Main.step (LInst k d) s = Some s'
       /\ Main.instances s' !! k = Some inst'
       /\ totalTime inst' = wrapInt (totalTime inst + currentTimeElapsed inst)
       /\ partiesServed inst' = partiesServed inst + 1
       /\ currentTimeElapsed inst' = 0.
Proof.
  intros Htk Hhl Hdp Ht1 Hmax Hs Hk Hw Hi.
  pose proof (Forall_lookup_1 _ _ _ _ (inv_ok _ _ (reachable_invariant _ _ Hs)) Hk)
    as Hok.
  pose proof (Forall_lookup_1 _ _ _ _ (reachable_timeOk _ _ Hs) Hk) as [_ Hd].
  unfold instanceOk in Hok. rewrite Hw in Hok, Hd.
  destruct Hok as (Hparty & _ & He & Hrange & Hdur).
  assert (Hclock : currentTimeElapsed inst = duration) by lia.
  destruct (time_in_range c s k inst Htk Hhl Hdp ltac:(lia) Hmax Hs Hk)
    as (_ & Htot & Hroom).
  specialize (Hroom Hparty).
  assert (Hwrap : wrapInt (totalTime inst + currentTimeElapsed inst)
                  = totalTime inst + currentTimeElapsed inst)
    by (apply wrapInt_in_range; unfold INT_MIN, INT_MAX in *; lia).
  split; [congruence|]. split; [exact Hwrap|].
  simpl. unfold Main.instanceStep, instanceThread. rewrite Hk, Hw.
  replace (i <? duration) with false by (symmetry; apply Z.ltb_ge; exact Hi).
  eexists. exists (complete duration (Main.stopFlag s) inst).
  split; [reflexivity|]. simpl.
  split; [apply list_lookup_insert_eq; eapply lookup_lt_Some; exact Hk|].
  rewrite Hwrap. repeat split. lia.
Qed.

Lemma completion_accounts_for_the_ticks_witness :
  (0 <= cfg_tanks scenarioA /\ 0 <= cfg_healers scenarioA /\ 0 <= cfg_dps scenarioA
   /\ 1 <= cfg_t1 scenarioA
   /\ cfg_t2 scenarioA * maxParties scenarioA <= INT_MAX
   /\ Main.reachable scenarioA
        (Main.mkState 0 0 0 2 2 false
           [mkInstance 1 true true 0 0 2 2 (AtLoop 2 2)] SchedLoop)
   /\ 2 <= 2)
  /\ currentTimeElapsed (mkInstance 1 true true 0 0 2 2 (AtLoop 2 2))
     = currDungeonDuration (mkInstance 1 true true 0 0 2 2 (AtLoop 2 2)).
Proof.
  assert (Hr : Main.reachable scenarioA
                 (Main.mkState 0 0 0 2 2 false
                    [mkInstance 1 true true 0 0 2 2 (AtLoop 2 2)] SchedLoop))
    by (apply (reachable_run scenarioA [LSched; LInst 0 2; LInst 0 2; LInst 0 2]);
        reflexivity).
  split.
  - repeat split; try (vm_compute; discriminate). exact Hr.
  - apply (completion_accounts_for_the_ticks scenarioA
             (Main.mkState 0 0 0 2 2 false
                [mkInstance 1 true true 0 0 2 2 (AtLoop 2 2)] SchedLoop) 0%nat
             (mkInstance 1 true true 0 0 2 2 (AtLoop 2 2)) 2 2 0);
      first [exact Hr | reflexivity | vm_compute; discriminate].
Defined.
